(** * counter: a sparse map of float64 values with a default

    Shallow embedding of [counter/counter.go] and the properties its
    specification states about it.

    - [float64] is Rocq's primitive binary64 float, so [+], [-], [*], [/],
      [==] and [>] are the IEEE 754 operations the Go code runs.  Equality
      of results in the theorems is identity of the float64 value;
      Go's [==] is [PrimFloat.eqb] (which separates NaN from itself and
      identifies the two zeros).
    - A Go [map[string]float64] is an association list with pairwise
      distinct keys ([distinct_keys]); the order of the list is the order
      in which a [range] loop visits the entries.  Go leaves that order
      open, and the theorems quantify over every list.
    - A method with a pointer receiver is a function from the receiver's
      state to its new state; the operations on two counters are also given
      over a heap of counters addressed by position, where the two operands
      may be one object. *)

From Stdlib Require Import List String Bool Arith ZArith Lia.
From Stdlib Require Import Floats.PrimFloat Floats.SpecFloat Floats.FloatAxioms.
Import ListNotations.

Local Open Scope string_scope.
Local Open Scope float_scope.
Local Open Scope list_scope.

Definition float64 := float.

(** ** Go maps from [string] to [float64] *)

Definition gomap := list (string * float64).

(** [v, ok := m[k]] *)
Fixpoint map_get (k : string) (m : gomap) : option float64 :=
  match m with
  | [] => None
  | (k', v) :: m' => if String.eqb k k' then Some v else map_get k m'
  end.

(** [m[k] = v, false]: the deletion statement of Go before Go 1. *)
Definition map_delete (k : string) (m : gomap) : gomap :=
  filter (fun kv => negb (String.eqb k (fst kv))) m.

(** [m[k] = v] *)
Fixpoint map_assign (k : string) (v : float64) (m : gomap) : gomap :=
  match m with
  | [] => [(k, v)]
  | (k', v') :: m' =>
      if String.eqb k k' then (k, v) :: m' else (k', v') :: map_assign k v m'
  end.

Definition map_keys (m : gomap) : list string := List.map fst m.

Definition distinct_keys (m : gomap) : Prop := NoDup (map_keys m).

(** ** The counter *)

Record Counter : Type := mkCounter {
  values : gomap;
  (** default value for missing items *)
  Base : float64
}.

Definition New (base : float64) : Counter := mkCounter [] base.

(** Return a value for a key (falling back to the default). *)
Definition Get (c : Counter) (k : string) : float64 :=
  match map_get k (values c) with
  | Some v => v
  | None => Base c
  end.

(** Set a value for a key.  The deletion in the branch [v == c.Base] is
    followed by the assignment [c.values[k] = v], which is not in an
    [else] branch. *)
Definition Set_ (c : Counter) (k : string) (v : float64) : Counter :=
  let c1 :=
    if v =? Base c then mkCounter (map_delete k (values c)) (Base c) else c in
  mkCounter (map_assign k v (values c1)) (Base c1).

(** Increment a value. *)
Definition Incr (c : Counter) (k : string) : Counter :=
  let v := Get c k in
  Set_ c k (v + 1).

(** Return a list of keys for this counter: the loop skips the entries
    whose value [==] the default. *)
Definition Keys (c : Counter) : list string :=
  fold_left
    (fun result kv => if snd kv =? Base c then result else result ++ [fst kv])
    (values c) [].

(** ** Merging two key lists

    [mergeKeys] sends on a channel from a goroutine that reads only its two
    argument slices and its own [seen] map; the receiver gets the values in
    the order they are sent, so the channel is the list of the values sent.
    [seen] is a [map[string]bool], kept here as the list of keys set to
    [true]. *)
Definition seen_get (seen : list string) (k : string) : bool :=
  existsb (String.eqb k) seen.

Definition mergeKeys (a b : list string) : list string :=
  let '(out, seen) :=
    fold_left (fun '(out, seen) k => (out ++ [k], k :: seen)) a ([], []) in
  fold_left
    (fun out k => if negb (seen_get seen k) then out ++ [k] else out) b out.

(** ** Operations on two counters, as functions of the operands' states

    [operate_new] is the body of the function [operate] and
    [operate_upd] the body of the method [(a *Counter) operate] when [a]
    and [b] are two objects; the heap versions below are the general ones. *)

Definition binop := float64 -> float64 -> float64.
Definition keysfn := list string -> list string -> list string.

Definition operate_new (a b : Counter) (op : binop) (keys : keysfn) : Counter :=
  let result := New (op (Base a) (Base b)) in
  fold_left (fun result k => Set_ result k (op (Get a k) (Get b k)))
    (keys (Keys a) (Keys b)) result.

Definition operate_upd (a b : Counter) (op : binop) (keys : keysfn) : Counter :=
  let a := mkCounter (values a) (op (Base a) (Base b)) in
  fold_left (fun a k => Set_ a k (op (Get a k) (Get b k)))
    (keys (Keys a) (Keys b)) a.

(** ** The heap of counters

    A [*Counter] is a position in the list of the counters allocated so
    far; [New] appends. *)
Module Heap.

Definition ptr := nat.
Bind Scope nat_scope with ptr.
Definition heap := list Counter.

Definition deref (h : heap) (p : ptr) : Counter := nth p h (New 0).

Fixpoint update (h : heap) (p : ptr) (c : Counter) : heap :=
  match h, p with
  | [], _ => []
  | _ :: h', O => c :: h'
  | x :: h', S p' => x :: update h' p' c
  end.

Definition alloc (h : heap) (c : Counter) : ptr * heap :=
  (List.length h, h ++ [c]).

(** Apply an operation on two counters, returning new counter with keys
    defined by the keys function. *)
Definition operate (a b : ptr) (op : binop) (keys : keysfn) (h : heap)
  : ptr * heap :=
  let '(result, h) :=
    alloc h (New (op (Base (deref h a)) (Base (deref h b)))) in
  (result,
   fold_left
     (fun h k =>
        update h result
          (Set_ (deref h result) k
             (op (Get (deref h a) k) (Get (deref h b) k))))
     (keys (Keys (deref h a)) (Keys (deref h b))) h).

Definition Add (a b : ptr) := operate a b add mergeKeys.
Definition Subtract (a b : ptr) := operate a b sub mergeKeys.
Definition Multiply (a b : ptr) := operate a b mul mergeKeys.
Definition Divide (a b : ptr) := operate a b div mergeKeys.

(** Apply an operation on two counters, updating the first counter with
    keys defined by the keys function.  [a.Base] is assigned first; the
    calls [a.Keys()] and [a.Get(k)] that follow read the updated
    counter. *)
Definition Counter_operate (a b : ptr) (op : binop) (keys : keysfn)
    (h : heap) : heap :=
  let h :=
    update h a
      (mkCounter (values (deref h a))
         (op (Base (deref h a)) (Base (deref h b)))) in
  fold_left
    (fun h k =>
       update h a
         (Set_ (deref h a) k (op (Get (deref h a) k) (Get (deref h b) k))))
    (keys (Keys (deref h a)) (Keys (deref h b))) h.

Definition Counter_Add (c o : ptr) := Counter_operate c o add mergeKeys.
Definition Counter_Subtract (c o : ptr) := Counter_operate c o sub mergeKeys.
Definition Counter_Multiply (c o : ptr) := Counter_operate c o mul mergeKeys.
Definition Counter_Divide (c o : ptr) := Counter_operate c o div mergeKeys.

End Heap.

(** ** Apply

    The function given to [Apply] is a closure: it reads and writes the
    variables it captures, of type [Env] here, and receives a [*string] that
    is [nil] for the default and [&k] for an entry.  [k] is the variable of
    the [range] loop: one variable for the whole loop, assigned at each
    iteration, so every [&k] is the same address.  [addr_k] is that
    address and the third component of the loop state is what the variable
    holds.  The function receives the address and not the memory: it can
    keep the pointer and test it against [nil], as the functions of this
    package do, and cannot read [*k].

    The loop writes to the map it ranges over, and only under the key it is
    visiting; each entry present when the loop starts is visited once, in
    the order of the list.  When [Set] deletes that key before it assigns
    it, Go leaves open whether the loop meets the key again; here it does
    not. *)
Inductive strptr : Type := addr_k.

Section ApplyDef.

Variable Env : Type.
Variable op : option strptr -> float64 -> Env -> float64 * Env.

Definition Apply_iter (st : Counter * Env * string) (kv : string * float64)
  : Counter * Env * string :=
  let '(c, env, _) := st in
  let k := fst kv in
  let '(v, env) := op (Some addr_k) (snd kv) env in
  (Set_ c k v, env, k).

(** Apply a function to every value in the counter (including the
    default). *)
Definition Apply (c : Counter) (env : Env) : Counter * Env * string :=
  let '(base, env) := op None (Base c) env in
  let c := mkCounter (values c) base in
  fold_left Apply_iter (values c) (c, env, "").

End ApplyDef.

Arguments Apply_iter {Env} op st kv.
Arguments Apply {Env} op c env.

(** [Apply] with a function that captures nothing it writes. *)
Definition Apply_fn (f : option strptr -> float64 -> float64) (c : Counter)
  : Counter :=
  fst (fst (Apply (fun key a (env : unit) => (f key a, env)) c tt)).

(** Reduce over the values in the counter (not including the default
    value). *)
Definition reduce (c : Counter) (base : float64) (op : binop) : float64 :=
  fold_left (fun val kv => op val (snd kv)) (values c) base.

Definition Sum (c : Counter) : float64 := reduce c (Base c) add.

(** Normalize a counter s.t. the sum over values is now 1.0. *)
Definition Normalize (c : Counter) : Counter :=
  let sum := reduce c 0 add in
  Apply_fn (fun _ a => a / sum) c.

Section MathLib.

(** [math.Log] and [math.Exp] of Go's library. *)
Variables math_Log math_Exp : float64 -> float64.

Definition Log (c : Counter) : Counter := Apply_fn (fun _ f => math_Log f) c.
Definition Exp (c : Counter) : Counter := Apply_fn (fun _ f => math_Exp f) c.

Definition LogNormalize (c : Counter) : Counter :=
  let sum := reduce c 0 add in
  let logSum := math_Log sum in
  Apply_fn (fun _ a => math_Log a - logSum) c.

End MathLib.

(** ** ArgMax

    The closure captures [maxKey] and [maxVal].  [*maxKey] in the [return]
    statement reads the variable [maxKey] points to when the loop is over,
    and panics when [maxKey] is [nil]. *)
Inductive outcome (A : Type) : Type :=
| Returns (a : A)
| PanicNilDereference.

Arguments Returns {A} a.
Arguments PanicNilDereference {A}.

Definition is_nil (p : option strptr) : bool :=
  match p with None => true | Some _ => false end.

Definition ArgMax_fn (key : option strptr) (val : float64)
    (env : option strptr * float64) : float64 * (option strptr * float64) :=
  let '(maxKey, maxVal) := env in
  if (maxVal <? val) || is_nil maxKey then (val, (key, val))
  else (val, (maxKey, maxVal)).

Definition ArgMax (c : Counter) : outcome (string * float64) * Counter :=
  let '(c, (maxKey, maxVal), k) := Apply ArgMax_fn c (None, 0) in
  match maxKey with
  | None => (PanicNilDereference, c)
  | Some addr_k => (Returns (k, maxVal), c)
  end.

(** ** Notions the properties are stated with *)

(** The entries [Keys] lists: its loop is a filter by this test. *)
Definition tracked (base : float64) (kv : string * float64) : bool :=
  negb (snd kv =? base).

(** The storage invariant of the specification: no stored value is [==] the
    default. *)
Definition storage_invariant (c : Counter) : Prop :=
  forall k v, map_get k (values c) = Some v -> (v =? Base c) = false.

(** The counter reached from [c] by a sequence of calls to [Set]. *)
Definition Set_all (c : Counter) (sets : list (string * float64)) : Counter :=
  fold_left (fun c kv => Set_ c (fst kv) (snd kv)) sets c.

(** Heaps of two counters, [a] at 0 and [b] at 1, used as examples. *)
Definition heap_add : Heap.heap := [New 1; Set_ (New 2) "x" 5].
Definition heap_stale_key : Heap.heap := [Set_ (New 0) "x" 3; New 3].
(** [1 / neg_infinity] is the negative zero, as [1 / math.Inf(-1)] is in
    Go. *)
Definition heap_signed_zero : Heap.heap :=
  [New 1; Set_ (New 0) "x" (1 / neg_infinity)].

(** The counter a call of [operate] returned. *)
Definition returned (rh : Heap.ptr * Heap.heap) : Counter :=
  Heap.deref (snd rh) (fst rh).

(** The rule of the specification for [ArgMax]: the first entry is
    accepted, and a later entry replaces the accepted one when its value is
    strictly greater. *)
Definition greater_entry (best kv : string * float64) : string * float64 :=
  if snd best <? snd kv then kv else best.

(** The value part of the rule alone. *)
Definition greater_value (maxVal : float64) (kv : string * float64) : float64 :=
  if maxVal <? snd kv then snd kv else maxVal.

Definition spec_arg_max (m : gomap) : option (string * float64) :=
  match m with
  | [] => None
  | kv :: m' => Some (fold_left greater_entry m' kv)
  end.

(** Counters used as examples. *)
Definition counter_a9_b1 : Counter := mkCounter [("a", 9); ("b", 1)] 0.
Definition counter_a9_b9 : Counter := mkCounter [("a", 9); ("b", 9)] 0.
Definition counter_b9_a9 : Counter := mkCounter [("b", 9); ("a", 9)] 0.
Definition counter_x1_y3 : Counter := mkCounter [("x", 1); ("y", 3)] 0.
Definition counter_y3_x1 : Counter := mkCounter [("y", 3); ("x", 1)] 0.

(** Two floats on which some test of the program differs are different. *)
Ltac float_neq test :=
  let H := fresh in
  intro H; apply (f_equal test) in H; vm_compute in H; discriminate H.

(** Case analysis on the comparisons of exponents and mantissas in the
    specification of the float comparisons. *)
Ltac cmp_cases :=
  repeat match goal with
  | |- context [Z.compare ?a ?b] => destruct (Z.compare_spec a b)
  | H : context [Z.compare ?a ?b] |- _ => destruct (Z.compare_spec a b)
  | |- context [Pos.compare_cont Eq ?a ?b] =>
      change (Pos.compare_cont Eq a b) with (Pos.compare a b);
      destruct (Pos.compare_spec a b)
  | H : context [Pos.compare_cont Eq ?a ?b] |- _ =>
      change (Pos.compare_cont Eq a b) with (Pos.compare a b) in H;
      destruct (Pos.compare_spec a b)
  end; simpl in *; subst; try reflexivity; try discriminate; try lia.

(** * Properties *)

(** ** Maps *)

Lemma map_get_assign (k k' : string) (v : float64) (m : gomap) :
  map_get k (map_assign k' v m)
  = if String.eqb k k' then Some v else map_get k m.
Proof.
  induction m as [|[k1 v1] m IH]; simpl.
  - destruct (String.eqb k k'); reflexivity.
  - destruct (String.eqb_spec k' k1) as [->|Hne]; simpl.
    + destruct (String.eqb k k1); reflexivity.
    + rewrite IH.
      destruct (String.eqb_spec k k1) as [->|]; [|reflexivity].
      destruct (String.eqb_spec k1 k') as [->|]; [congruence|reflexivity].
Qed.

Lemma map_get_delete (k k' : string) (m : gomap) :
  map_get k (map_delete k' m)
  = if String.eqb k k' then None else map_get k m.
Proof.
  induction m as [|[k1 v1] m IH]; simpl.
  - destruct (String.eqb k k'); reflexivity.
  - destruct (String.eqb_spec k' k1) as [->|Hne]; simpl.
    + rewrite IH. destruct (String.eqb k k1); reflexivity.
    + rewrite IH.
      destruct (String.eqb_spec k k1) as [->|]; [|reflexivity].
      destruct (String.eqb_spec k1 k') as [->|]; [congruence|reflexivity].
Qed.

Lemma map_get_None (k : string) (m : gomap) :
  map_get k m = None <-> ~ In k (map_keys m).
Proof.
  induction m as [|[k1 v1] m IH]; simpl.
  - tauto.
  - destruct (String.eqb_spec k k1) as [->|Hne].
    + split; [discriminate|]. intros H. exfalso. apply H. now left.
    + rewrite IH. split.
      * intros H [E|E]; [congruence|tauto].
      * intros H E. apply H. now right.
Qed.

Lemma map_get_In (k : string) (v : float64) (m : gomap) :
  map_get k m = Some v -> In (k, v) m.
Proof.
  induction m as [|[k1 v1] m IH]; simpl; [discriminate|].
  destruct (String.eqb_spec k k1) as [->|Hne].
  - intros [= ->]. now left.
  - intros H. right. now apply IH.
Qed.

Lemma In_map_get (k : string) (v : float64) (m : gomap) :
  distinct_keys m -> In (k, v) m -> map_get k m = Some v.
Proof.
  unfold distinct_keys.
  induction m as [|[k1 v1] m IH]; simpl; [tauto|].
  intros Hnd [E|Hin].
  - injection E as -> ->. now rewrite String.eqb_refl.
  - inversion Hnd as [|? ? Hnotin Hnd']; subst.
    destruct (String.eqb_spec k k1) as [->|Hne].
    + exfalso. apply Hnotin. change k1 with (fst (k1, v)).
      now apply in_map.
    + now apply IH.
Qed.

Lemma map_keys_delete (k : string) (m : gomap) :
  map_keys (map_delete k m)
  = filter (fun k' => negb (String.eqb k k')) (map_keys m).
Proof.
  induction m as [|[k1 v1] m IH]; simpl; [reflexivity|].
  destruct (String.eqb k k1); simpl; now rewrite IH.
Qed.

Lemma map_keys_assign (k : string) (v : float64) (m : gomap) :
  map_keys (map_assign k v m)
  = if existsb (String.eqb k) (map_keys m) then map_keys m
    else map_keys m ++ [k].
Proof.
  induction m as [|[k1 v1] m IH]; simpl; [reflexivity|].
  destruct (String.eqb_spec k k1) as [->|Hne]; simpl; [reflexivity|].
  rewrite IH. now destruct (existsb (String.eqb k) (map_keys m)).
Qed.

Lemma existsb_eqb_In (k : string) (l : list string) :
  existsb (String.eqb k) l = true <-> In k l.
Proof.
  rewrite existsb_exists. split.
  - intros [x [Hin Heq]]. apply String.eqb_eq in Heq. now subst.
  - intros Hin. exists k. split; [assumption|apply String.eqb_refl].
Qed.

Lemma existsb_eqb_notIn (k : string) (l : list string) :
  existsb (String.eqb k) l = false <-> ~ In k l.
Proof.
  rewrite <- existsb_eqb_In. now destruct (existsb (String.eqb k) l).
Qed.

Lemma distinct_keys_delete (k : string) (m : gomap) :
  distinct_keys m -> distinct_keys (map_delete k m).
Proof.
  unfold distinct_keys. rewrite map_keys_delete. apply NoDup_filter.
Qed.

Lemma distinct_keys_assign (k : string) (v : float64) (m : gomap) :
  distinct_keys m -> distinct_keys (map_assign k v m).
Proof.
  unfold distinct_keys. rewrite map_keys_assign. intros Hnd.
  destruct (existsb (String.eqb k) (map_keys m)) eqn:E; [assumption|].
  apply existsb_eqb_notIn in E.
  apply NoDup_app; repeat split; try assumption.
  - repeat constructor. simpl. tauto.
  - intros x Hx [<-|[]]. contradiction.
Qed.

(** ** Get, Set and Keys *)

Lemma Base_Set (c : Counter) (k : string) (v : float64) :
  Base (Set_ c k v) = Base c.
Proof. unfold Set_. now destruct (v =? Base c). Qed.

Lemma map_get_Set (c : Counter) (k k' : string) (v : float64) :
  map_get k (values (Set_ c k' v))
  = if String.eqb k k' then Some v else map_get k (values c).
Proof.
  unfold Set_. destruct (v =? Base c); simpl; rewrite map_get_assign.
  - rewrite map_get_delete. now destruct (String.eqb k k').
  - reflexivity.
Qed.

Lemma Get_Set (c : Counter) (k k' : string) (v : float64) :
  Get (Set_ c k' v) k = if String.eqb k k' then v else Get c k.
Proof.
  unfold Get. rewrite map_get_Set, Base_Set.
  now destruct (String.eqb k k').
Qed.

Lemma Get_Set_same (c : Counter) (k : string) (v : float64) :
  Get (Set_ c k v) k = v.
Proof. now rewrite Get_Set, String.eqb_refl. Qed.

Lemma Get_Set_other (c : Counter) (k k' : string) (v : float64) :
  k <> k' -> Get (Set_ c k' v) k = Get c k.
Proof.
  intros Hne. rewrite Get_Set.
  now destruct (String.eqb_spec k k').
Qed.

Lemma distinct_keys_Set (c : Counter) (k : string) (v : float64) :
  distinct_keys (values c) -> distinct_keys (values (Set_ c k v)).
Proof.
  intros H. unfold Set_. destruct (v =? Base c); simpl.
  - now apply distinct_keys_assign, distinct_keys_delete.
  - now apply distinct_keys_assign.
Qed.

Lemma Get_Incr (c : Counter) (k k' : string) :
  Get (Incr c k) k' = if String.eqb k' k then Get c k + 1 else Get c k'.
Proof. unfold Incr. apply Get_Set. Qed.

Lemma distinct_keys_New (base : float64) : distinct_keys (values (New base)).
Proof. constructor. Qed.

Lemma distinct_keys_Set_all (sets : list (string * float64)) (c : Counter) :
  distinct_keys (values c) -> distinct_keys (values (Set_all c sets)).
Proof.
  revert c. induction sets as [|[k v] sets IH]; intros c H; [assumption|].
  apply IH. now apply distinct_keys_Set.
Qed.

Lemma Keys_filter (c : Counter) :
  Keys c = map_keys (filter (tracked (Base c)) (values c)).
Proof.
  unfold Keys.
  enough (G : forall m acc,
    fold_left
      (fun result kv =>
         if snd kv =? Base c then result else result ++ [fst kv]) m acc
    = acc ++ map_keys (filter (tracked (Base c)) m)).
  { now rewrite G. }
  induction m as [|[k v] m IH]; intros acc; simpl.
  - now rewrite app_nil_r.
  - rewrite IH. unfold tracked at 2. simpl.
    destruct (v =? Base c); simpl; [reflexivity|].
    now rewrite <- app_assoc.
Qed.

Lemma In_Keys (c : Counter) (k : string) :
  In k (Keys c) <->
  exists v, In (k, v) (values c) /\ (v =? Base c) = false.
Proof.
  rewrite Keys_filter. unfold map_keys. rewrite in_map_iff. split.
  - intros [[k' v] [E Hin]]. simpl in E. subst k'.
    apply filter_In in Hin. destruct Hin as [Hin Ht].
    exists v. split; [assumption|].
    unfold tracked in Ht. simpl in Ht. now destruct (v =? Base c).
  - intros [v [Hin Hv]]. exists (k, v). split; [reflexivity|].
    apply filter_In. split; [assumption|].
    unfold tracked. simpl. now rewrite Hv.
Qed.

(** A key outside [Keys] is absent or holds a value [==] the default. *)
Lemma not_In_Keys (c : Counter) (k : string) :
  ~ In k (Keys c) ->
  map_get k (values c) = None \/
  exists v, map_get k (values c) = Some v /\ (v =? Base c) = true.
Proof.
  intros Hn. destruct (map_get k (values c)) as [v|] eqn:E; [|now left].
  right. exists v. split; [reflexivity|].
  destruct (v =? Base c) eqn:Ev; [reflexivity|].
  exfalso. apply Hn. apply In_Keys. exists v. split; [|assumption].
  now apply map_get_In.
Qed.

Lemma map_keys_app (m1 m2 : gomap) :
  map_keys (m1 ++ m2) = map_keys m1 ++ map_keys m2.
Proof. apply map_app. Qed.

Lemma map_assign_fresh (k : string) (v : float64) (m : gomap) :
  ~ In k (map_keys m) -> map_assign k v m = m ++ [(k, v)].
Proof.
  induction m as [|[k1 v1] m IH]; simpl; [reflexivity|].
  intros Hn. destruct (String.eqb_spec k k1) as [->|Hne].
  - exfalso. apply Hn. now left.
  - rewrite IH; [reflexivity|]. intros Hin. apply Hn. now right.
Qed.

Lemma not_In_map_delete (k : string) (m : gomap) :
  ~ In k (map_keys (map_delete k m)).
Proof.
  rewrite map_keys_delete. intros Hin. apply filter_In in Hin.
  destruct Hin as [_ Hk]. now rewrite String.eqb_refl in Hk.
Qed.

(** ** mergeKeys *)

Lemma mergeKeys_first_loop (a out seen : list string) :
  fold_left (fun '(out, seen) k => (out ++ [k], k :: seen)) a (out, seen)
  = (out ++ a, rev a ++ seen).
Proof.
  revert out seen. induction a as [|k a IH]; intros out seen; simpl.
  - now rewrite app_nil_r.
  - rewrite IH. now rewrite <- !app_assoc.
Qed.

Lemma mergeKeys_second_loop (seen b out : list string) :
  fold_left
    (fun out k => if negb (seen_get seen k) then out ++ [k] else out) b out
  = out ++ filter (fun k => negb (seen_get seen k)) b.
Proof.
  revert out. induction b as [|k b IH]; intros out; simpl.
  - now rewrite app_nil_r.
  - rewrite IH. destruct (seen_get seen k); simpl; [reflexivity|].
    now rewrite <- app_assoc.
Qed.

Lemma seen_get_In (seen : list string) (k : string) :
  seen_get seen k = true <-> In k seen.
Proof. apply existsb_eqb_In. Qed.

Lemma mergeKeys_eq (a b : list string) :
  mergeKeys a b = a ++ filter (fun k => negb (seen_get (rev a) k)) b.
Proof.
  unfold mergeKeys. rewrite mergeKeys_first_loop. simpl.
  rewrite mergeKeys_second_loop. now rewrite app_nil_r.
Qed.

Lemma In_mergeKeys (a b : list string) (k : string) :
  In k (mergeKeys a b) <-> In k a \/ In k b.
Proof.
  rewrite mergeKeys_eq, in_app_iff, filter_In. split.
  - tauto.
  - intros [Ha|Hb]; [now left|].
    destruct (seen_get (rev a) k) eqn:E.
    + left. apply seen_get_In in E. now apply in_rev.
    + right. split; [assumption|reflexivity].
Qed.

Lemma NoDup_mergeKeys (a b : list string) :
  NoDup a -> NoDup b -> NoDup (mergeKeys a b).
Proof.
  intros Ha Hb. rewrite mergeKeys_eq.
  apply NoDup_app; repeat split.
  - assumption.
  - now apply NoDup_filter.
  - intros k Hin Hf. apply filter_In in Hf. destruct Hf as [_ Hs].
    apply negb_true_iff in Hs.
    assert (Hseen : seen_get (rev a) k = true).
    { apply seen_get_In. now apply in_rev in Hin. }
    congruence.
Qed.

Lemma seen_get_rev (a : list string) (k : string) :
  seen_get (rev a) k = seen_get a k.
Proof.
  destruct (seen_get a k) eqn:E.
  - apply seen_get_In. apply in_rev. rewrite rev_involutive.
    now apply seen_get_In.
  - apply existsb_eqb_notIn. intros Hin. apply in_rev in Hin.
    apply existsb_eqb_notIn in E. contradiction.
Qed.

Lemma distinct_keys_filter (f : string * float64 -> bool) (m : gomap) :
  distinct_keys m -> distinct_keys (filter f m).
Proof.
  unfold distinct_keys, map_keys.
  induction m as [|[k v] m IH]; simpl; intros Hnd; [constructor|].
  inversion Hnd as [|? ? Hnotin Hnd']; subst.
  destruct (f (k, v)); simpl; [|now apply IH].
  constructor; [|now apply IH].
  intros Hin. apply Hnotin. apply in_map_iff in Hin.
  destruct Hin as [kv [E Hin]]. apply filter_In in Hin.
  apply in_map_iff. exists kv. tauto.
Qed.

Lemma NoDup_Keys (c : Counter) :
  distinct_keys (values c) -> NoDup (Keys c).
Proof. rewrite Keys_filter. apply distinct_keys_filter. Qed.

Lemma In_map_assign (k : string) (v : float64) (m : gomap) :
  In (k, v) (map_assign k v m).
Proof.
  induction m as [|[k1 v1] m IH]; simpl; [now left|].
  destruct (String.eqb k k1); [now left|now right].
Qed.

(** ** The claims on [Set], [Get], [Keys] and [mergeKeys] *)

(** C1. The specification asks that no stored entry's value equals the
    counter's base and that [Set] with a value equal to the base removes
    the key without storing it.  On the counter [New(0.0)], where the
    invariant holds, [Set("x", 0.0)] leaves the entry ["x" -> 0.0] in the
    map: the deletion is followed by the assignment, so the invariant is
    lost. *)
Theorem Set_base_value_breaks_storage_invariant :
  storage_invariant (New 0) /\
  values (Set_ (New 0) "x" 0) = [("x", 0)] /\
  ~ storage_invariant (Set_ (New 0) "x" 0).
Proof.
  split; [|split].
  - intros k v H. discriminate H.
  - reflexivity.
  - intros H. specialize (H "x" 0 eq_refl). vm_compute in H. discriminate H.
Qed.

(** C5. Immediately after [c.Set(k, v)]: if [v == c.Base], the test [Set]
    itself makes, then [k] is not in [c.Keys()]; otherwise [k] is in
    [c.Keys()] and [c.Get(k)] returns [v]. *)
Theorem Set_then_Keys_and_Get (c : Counter) (k : string) (v : float64) :
  if v =? Base c
  then ~ In k (Keys (Set_ c k v))
  else In k (Keys (Set_ c k v)) /\ Get (Set_ c k v) k = v.
Proof.
  destruct (v =? Base c) eqn:E.
  - intros Hin. apply In_Keys in Hin. destruct Hin as [v' [Hin Hv']].
    rewrite Base_Set in Hv'. unfold Set_ in Hin. rewrite E in Hin.
    simpl in Hin.
    rewrite map_assign_fresh in Hin by apply not_In_map_delete.
    apply in_app_iff in Hin. destruct Hin as [Hin|[Heq|[]]].
    + apply (not_In_map_delete k (values c)).
      change k with (fst (k, v')). now apply in_map.
    + injection Heq as <-. congruence.
  - split; [|apply Get_Set_same].
    apply In_Keys. exists v. rewrite Base_Set. split; [|assumption].
    unfold Set_. rewrite E. apply In_map_assign.
Qed.

Lemma Get_Set_all_other (sets : list (string * float64)) (c : Counter)
    (k : string) :
  ~ In k (List.map fst sets) -> Get (Set_all c sets) k = Get c k.
Proof.
  revert c. induction sets as [|[k1 v1] sets IH]; intros c Hn; simpl.
  - reflexivity.
  - unfold Set_all in *. simpl. rewrite IH.
    + apply Get_Set_other. intros ->. apply Hn. now left.
    + intros Hin. apply Hn. now right.
Qed.

(** C8. [Get] returns the value stored under the key when there is one and
    the counter's base otherwise; a key that no call to [Set] has named
    since [New(base)] reads as [base].  [Get] is a function of the
    counter's state alone: the source assigns to nothing in it, and it has
    no failing branch. *)
Theorem Get_stored_value_or_Base (c : Counter) (k : string) :
  (forall v, map_get k (values c) = Some v -> Get c k = v) /\
  (map_get k (values c) = None -> Get c k = Base c) /\
  (forall base sets,
     ~ In k (List.map fst sets) -> Get (Set_all (New base) sets) k = base).
Proof.
  split; [|split].
  - intros v H. unfold Get. now rewrite H.
  - intros H. unfold Get. now rewrite H.
  - intros base sets Hn. now rewrite Get_Set_all_other.
Qed.

Lemma Get_stored_value_or_Base_witness :
  Get counter_x1_y3 "x" = 1 /\ Get counter_x1_y3 "z" = 0 /\
  Get (Set_all (New 7) [("x", 1); ("y", 3)]) "z" = 7.
Proof.
  split; [|split].
  - exact (proj1 (Get_stored_value_or_Base counter_x1_y3 "x") 1 eq_refl).
  - exact (proj1 (proj2 (Get_stored_value_or_Base counter_x1_y3 "z")) eq_refl).
  - apply (proj2 (proj2 (Get_stored_value_or_Base counter_x1_y3 "z"))).
    simpl. intros H.
    repeat (destruct H as [H|H]; try discriminate H). assumption.
Defined.

(** C10. [Set(k, v)] with [v] the counter's base leaves an entry for [k]
    in the map, and [reduce] folds over it: on [New(b)], after [Set(k, b)]
    the map is [k -> b] and [Sum()] is [b + b]; with [b = 1.0] that is
    [2.0] and not [1.0]. *)
Theorem Set_base_value_is_stored_and_summed :
  (forall c k, map_get k (values (Set_ c k (Base c))) = Some (Base c)) /\
  (forall b k,
     values (Set_ (New b) k b) = [(k, b)] /\
     Sum (Set_ (New b) k b) = b + b) /\
  Sum (Set_ (New 1) "k" 1) = 2 /\ Sum (Set_ (New 1) "k" 1) <> 1.
Proof.
  split; [|split; [|split]].
  - intros c k. now rewrite map_get_Set, String.eqb_refl.
  - intros b k.
    assert (Hv : values (Set_ (New b) k b) = [(k, b)]).
    { unfold Set_. simpl. now destruct (b =? b). }
    split; [assumption|].
    unfold Sum, reduce. rewrite Hv, Base_Set. reflexivity.
  - reflexivity.
  - float_neq (fun x => x =? 1).
Qed.

(** C7.  The key merge of the operations on two counters emits all of
    [a]'s keys first, in the order of [a], followed by the keys of [b] that
    [a] does not list, in the order of [b]; the keys emitted are exactly
    those of [a] or [b]; and for [a] and [b] that list no key twice, as the
    results of [Keys] on which it is called do, no key is emitted twice. *)
Theorem mergeKeys_union_without_duplicates (a b : list string) :
  mergeKeys a b = a ++ filter (fun k => negb (seen_get a k)) b /\
  (forall k, In k (mergeKeys a b) <-> In k a \/ In k b) /\
  (NoDup a -> NoDup b -> NoDup (mergeKeys a b)) /\
  (forall ca cb,
     distinct_keys (values ca) -> distinct_keys (values cb) ->
     NoDup (mergeKeys (Keys ca) (Keys cb))).
Proof.
  split; [|split; [|split]].
  - rewrite mergeKeys_eq. f_equal. apply filter_ext.
    intros k. now rewrite seen_get_rev.
  - intros k. apply In_mergeKeys.
  - apply NoDup_mergeKeys.
  - intros ca cb Ha Hb. apply NoDup_mergeKeys; now apply NoDup_Keys.
Qed.

Lemma mergeKeys_union_without_duplicates_witness :
  mergeKeys ["a"; "b"] ["b"; "c"] = ["a"; "b"; "c"] /\
  NoDup (mergeKeys ["a"; "b"] ["b"; "c"]) /\
  NoDup (mergeKeys (Keys counter_x1_y3) (Keys counter_y3_x1)).
Proof.
  destruct (mergeKeys_union_without_duplicates ["a"; "b"] ["b"; "c"])
    as [He [_ [Hn Hc]]].
  split; [exact He|]. split.
  - apply Hn; repeat constructor; simpl; intros H;
      repeat (destruct H as [H|H]; try discriminate H); assumption.
  - apply Hc; repeat constructor; simpl; intros H;
      repeat (destruct H as [H|H]; try discriminate H); assumption.
Defined.

(** ** Folding [Set] over a list of keys *)

Lemma Base_fold_Set (f : string -> float64) (ks : list string) (r : Counter) :
  Base (fold_left (fun r k => Set_ r k (f k)) ks r) = Base r.
Proof.
  revert r. induction ks as [|k ks IH]; intros r; simpl; [reflexivity|].
  now rewrite IH, Base_Set.
Qed.

Lemma Get_fold_Set (f : string -> float64) (ks : list string) (r : Counter)
    (k : string) :
  Get (fold_left (fun r k => Set_ r k (f k)) ks r) k
  = if seen_get ks k then f k else Get r k.
Proof.
  revert r. induction ks as [|k1 ks IH]; intros r; simpl; [reflexivity|].
  rewrite IH, Get_Set.
  destruct (String.eqb_spec k k1) as [->|Hne]; simpl.
  - now destruct (seen_get ks k1).
  - reflexivity.
Qed.

Lemma seen_get_false (ks : list string) (k : string) :
  ~ In k ks -> seen_get ks k = false.
Proof. apply existsb_eqb_notIn. Qed.

Lemma seen_get_true (ks : list string) (k : string) :
  In k ks -> seen_get ks k = true.
Proof. apply seen_get_In. Qed.

(** ** The heap *)

Module HeapFacts.
Import Heap.

Lemma deref_app_old (h : heap) (c : Counter) (p : ptr) :
  (p < List.length h)%nat -> deref (h ++ [c]) p = deref h p.
Proof. intros Hp. unfold deref. now rewrite app_nth1. Qed.

Lemma deref_app_new (h : heap) (c : Counter) :
  deref (h ++ [c]) (List.length h) = c.
Proof. unfold deref. rewrite app_nth2, Nat.sub_diag; [reflexivity|lia]. Qed.

Lemma update_app_new (h : heap) (c c' : Counter) :
  update (h ++ [c]) (List.length h) c' = h ++ [c'].
Proof. induction h as [|x h IH]; simpl; [reflexivity|now rewrite IH]. Qed.

Lemma length_update (h : heap) (p : ptr) (c : Counter) :
  List.length (update h p c) = List.length h.
Proof.
  revert p. induction h as [|x h IH]; intros [|p]; simpl; auto.
Qed.

Lemma deref_update_same (h : heap) (p : ptr) (c : Counter) :
  (p < List.length h)%nat -> deref (update h p c) p = c.
Proof.
  revert p. induction h as [|x h IH]; intros [|p] Hp; simpl in *;
    try lia; [reflexivity|].
  apply IH. lia.
Qed.

Lemma deref_update_other (h : heap) (p q : ptr) (c : Counter) :
  p <> q -> deref (update h p c) q = deref h q.
Proof.
  revert p q. induction h as [|x h IH]; intros [|p] [|q] Hne; simpl;
    try reflexivity; try congruence.
  apply IH. congruence.
Qed.

(** The function [operate] writes only to the counter it allocates. *)
Lemma operate_eq (h : heap) (a b : ptr) (op : binop) (keys : keysfn) :
  (a < List.length h)%nat -> (b < List.length h)%nat ->
  operate a b op keys h
  = (List.length h,
     h ++ [operate_new (deref h a) (deref h b) op keys]).
Proof.
  intros Ha Hb. unfold operate, alloc, operate_new.
  rewrite !deref_app_old by assumption. f_equal.
  generalize (keys (Keys (deref h a)) (Keys (deref h b))).
  generalize (New (op (Base (deref h a)) (Base (deref h b)))).
  intros r ks. revert r. induction ks as [|k ks IH]; intros r; simpl.
  - reflexivity.
  - rewrite deref_app_new, !deref_app_old by assumption.
    rewrite update_app_new. apply IH.
Qed.

(** The method [operate] on two distinct objects. *)
Lemma Counter_operate_eq (h : heap) (a b : ptr) (op : binop)
    (keys : keysfn) :
  (a < List.length h)%nat -> a <> b ->
  Counter_operate a b op keys h
  = update h a (operate_upd (deref h a) (deref h b) op keys).
Proof.
  intros Ha Hab. unfold Counter_operate, operate_upd.
  rewrite deref_update_same by assumption.
  rewrite deref_update_other by assumption.
  set (a0 := mkCounter (values (deref h a))
               (op (Base (deref h a)) (Base (deref h b)))).
  generalize (keys (Keys a0) (Keys (deref h b))).
  generalize a0. clear a0.
  intros r ks. revert r. induction ks as [|k ks IH]; intros r; simpl.
  - reflexivity.
  - rewrite deref_update_same by assumption.
    rewrite deref_update_other by assumption.
    assert (E : forall c c', update (update h a c) a c' = update h a c').
    { clear. revert a. induction h as [|x h IHh]; intros [|a] c c'; simpl;
        try reflexivity. now rewrite IHh. }
    rewrite E. apply IH.
Qed.

End HeapFacts.

(** ** The claims on the operations on two counters *)

Section TwoCounters.
Import Heap HeapFacts.

Lemma Base_operate_new (a b : Counter) (op : binop) (keys : keysfn) :
  Base (operate_new a b op keys) = op (Base a) (Base b).
Proof.
  unfold operate_new.
  now rewrite (Base_fold_Set (fun k => op (Get a k) (Get b k))).
Qed.

Lemma Get_operate_new (a b : Counter) (op : binop) (keys : keysfn)
    (k : string) :
  Get (operate_new a b op keys) k
  = if seen_get (keys (Keys a) (Keys b)) k then op (Get a k) (Get b k)
    else op (Base a) (Base b).
Proof.
  unfold operate_new.
  now rewrite (Get_fold_Set (fun k => op (Get a k) (Get b k))).
Qed.

(** C6.  The specification asks that the counter [operate] returns hold
    [op(a.Get(k), b.Get(k))] under every key [k].  [b] is [New(0.0)] after
    [Set("x", z)] with [z] the negative zero: [z == 0.0], so [Set] should
    have removed ["x"], and it stores [z] (the defect of C1); [b] does not
    hold the storage invariant, and [Keys] does not list ["x"].
    [Divide(a, b)] with [a = New(1.0)] then assigns no key: its [Get("x")]
    is the base [1/0 = +Inf], where [a.Get("x") / b.Get("x")] is
    [1/-0 = -Inf]. *)
Theorem Divide_differs_outside_the_merged_keys :
  ~ storage_invariant (deref heap_signed_zero 1) /\
  mergeKeys (Keys (deref heap_signed_zero 0)) (Keys (deref heap_signed_zero 1))
  = [] /\
  Get (returned (Divide 0 1 heap_signed_zero)) "x" = infinity /\
  Get (deref heap_signed_zero 0) "x" / Get (deref heap_signed_zero 1) "x"
  = neg_infinity /\
  Get (returned (Divide 0 1 heap_signed_zero)) "x"
  <> Get (deref heap_signed_zero 0) "x" / Get (deref heap_signed_zero 1) "x".
Proof.
  split; [|repeat split; try reflexivity].
  - intros H. specialize (H "x" (1 / neg_infinity) eq_refl).
    vm_compute in H. discriminate H.
  - float_neq (fun x => x <? 0).
Qed.

(** Under the storage invariant a key outside [Keys] reads as the base. *)
Lemma Get_outside_Keys (c : Counter) (k : string) :
  storage_invariant c -> ~ In k (Keys c) -> Get c k = Base c.
Proof.
  intros Hinv Hn. unfold Get.
  destruct (not_In_Keys c k Hn) as [E|[v [E Hv]]]; rewrite E; [reflexivity|].
  apply Hinv in E. congruence.
Qed.

(** X20.  [operate(a, b, op, mergeKeys)], of which [Add],
    [Subtract], [Multiply] and [Divide] are the instances, returns a
    counter that was not on the heap before; every counter that was,
    [a] and [b] among them, is as it was.  The base of the result is
    [op(a.Base, b.Base)]; for every key [k] in the merge of [a.Keys()]
    and [b.Keys()] its [Get(k)] is [op(a.Get(k), b.Get(k))], and for
    every other key it is the base of the result.  When no stored value
    of [a] or of [b] is [==] the counter's base, [Get(k)] of the result is
    [op(a.Get(k), b.Get(k))] for every key [k]. *)
Theorem operate_returns_new_counter (h : heap) (a b : ptr) (op : binop) :
  (a < List.length h)%nat -> (b < List.length h)%nat ->
  let ca := deref h a in
  let cb := deref h b in
  let h' := snd (operate a b op mergeKeys h) in
  let result := returned (operate a b op mergeKeys h) in
  fst (operate a b op mergeKeys h) = List.length h /\
  (forall p, (p < List.length h)%nat -> deref h' p = deref h p) /\
  Base result = op (Base ca) (Base cb) /\
  (forall k, In k (mergeKeys (Keys ca) (Keys cb)) ->
             Get result k = op (Get ca k) (Get cb k)) /\
  (forall k, ~ In k (mergeKeys (Keys ca) (Keys cb)) ->
             Get result k = op (Base ca) (Base cb)) /\
  (storage_invariant ca -> storage_invariant cb ->
   forall k, Get result k = op (Get ca k) (Get cb k)).
Proof.
  intros Ha Hb. cbv zeta. unfold returned.
  rewrite operate_eq by assumption. simpl.
  rewrite deref_app_new. repeat split.
  - intros p Hp. now apply deref_app_old.
  - apply Base_operate_new.
  - intros k Hin. rewrite Get_operate_new.
    now rewrite (seen_get_true _ _ Hin).
  - intros k Hn. rewrite Get_operate_new.
    now rewrite (seen_get_false _ _ Hn).
  - intros Hia Hib k. rewrite Get_operate_new.
    destruct (seen_get (mergeKeys (Keys (deref h a)) (Keys (deref h b))) k)
      eqn:E; [reflexivity|].
    apply existsb_eqb_notIn in E. rewrite In_mergeKeys in E.
    rewrite !Get_outside_Keys by tauto. reflexivity.
Qed.

Lemma operate_returns_new_counter_witness :
  fst (Add 0 1 heap_add) = 2%nat /\
  deref (snd (Add 0 1 heap_add)) 0 = deref heap_add 0 /\
  deref (snd (Add 0 1 heap_add)) 1 = deref heap_add 1 /\
  Base (returned (Add 0 1 heap_add)) = 3 /\
  Get (returned (Add 0 1 heap_add)) "x" = 6 /\
  Get (returned (Add 0 1 heap_add)) "z" = 3.
Proof.
  assert (Ha : (0 < List.length heap_add)%nat) by (simpl; lia).
  assert (Hb : (1 < List.length heap_add)%nat) by (simpl; lia).
  destruct (operate_returns_new_counter heap_add 0 1 add Ha Hb)
    as [Hr [Hold [Hbase [Hin [_ Hall]]]]].
  split; [exact Hr|].
  split; [exact (Hold 0%nat Ha)|].
  split; [exact (Hold 1%nat Hb)|].
  split; [exact Hbase|].
  split; [exact (Hin "x" (or_introl eq_refl))|].
  apply (Hall ltac:(intros k v H; discriminate H)).
  intros k v H. simpl in H.
  destruct (String.eqb k "x"); [|discriminate H].
  injection H as <-. reflexivity.
Defined.

(** What the method leaves in [a] when [a] and [b] are two objects: with
    [a'] the counter [a] under its new base, every key of the merge of
    [a'.Keys()] and [b.Keys()] holds [op(a'.Get(k), b.Get(k))].  The
    function reads [a] where the method reads [a']. *)
Lemma Get_fold_Set_read (g : float64 -> string -> float64)
    (ks : list string) (r : Counter) (k : string) :
  NoDup ks ->
  Get (fold_left (fun a k => Set_ a k (g (Get a k) k)) ks r) k
  = if seen_get ks k then g (Get r k) k else Get r k.
Proof.
  revert r. induction ks as [|k1 ks IH]; intros r Hnd; [reflexivity|].
  inversion Hnd as [|? ? Hnotin Hnd']; subst.
  cbn [fold_left]. rewrite IH by assumption. simpl.
  destruct (String.eqb_spec k k1) as [->|Hne]; simpl.
  - rewrite (seen_get_false _ _ Hnotin). apply Get_Set_same.
  - now rewrite Get_Set_other by assumption.
Qed.

Lemma Get_operate_upd (a b : Counter) (op : binop) (k : string) :
  distinct_keys (values a) -> distinct_keys (values b) ->
  let a' := mkCounter (values a) (op (Base a) (Base b)) in
  Get (operate_upd a b op mergeKeys) k
  = if seen_get (mergeKeys (Keys a') (Keys b)) k
    then op (Get a' k) (Get b k)
    else Get a' k.
Proof.
  intros Ha Hb a'. unfold operate_upd. fold a'.
  apply (Get_fold_Set_read (fun x k => op x (Get b k))).
  apply NoDup_mergeKeys; now apply NoDup_Keys.
Qed.

(** C2.  The specification asks that the in-place form leave [a] in the
    state of the counter the pure form returns.  With [a = New(1.0)] and
    [b = New(2.0)] after [Set("x", 5.0)], [Add(a, b)] holds [x -> 6.0]
    and [a.Add(b)] leaves [x -> 8.0] in [a]: the method assigns [a.Base]
    first, and the [a.Get("x")] it then evaluates reads the new base.
    With [a = New(0.0)] after [Set("x", 3.0)] and [b = New(3.0)],
    [Add(a, b)] holds [x -> 6.0] and [a.Add(b)] leaves [x -> 3.0]:
    [a.Keys()] is evaluated after the assignment of the base as well, and
    no longer lists ["x"]. *)
Theorem Counter_Add_differs_from_Add :
  (returned (Add 0 1 heap_add) = mkCounter [("x", 6)] 3 /\
   deref (Counter_Add 0 1 heap_add) 0 = mkCounter [("x", 8)] 3) /\
  (returned (Add 0 1 heap_stale_key) = mkCounter [("x", 6)] 3 /\
   deref (Counter_Add 0 1 heap_stale_key) 0 = mkCounter [("x", 3)] 3) /\
  Get (deref (Counter_Add 0 1 heap_add) 0) "x"
  <> Get (returned (Add 0 1 heap_add)) "x".
Proof.
  repeat split; try reflexivity.
  float_neq (fun x => x =? 6).
Qed.

End TwoCounters.

(** ** Apply *)

Lemma last_default_irrelevant (l : list string) (a d d' : string) :
  last (a :: l) d = last (a :: l) d'.
Proof.
  revert a. induction l as [|b l IH]; intros a; [reflexivity|].
  change (last (b :: l) d = last (b :: l) d'). apply IH.
Qed.

Lemma last_cons (l : list string) (a d : string) :
  last (a :: l) d = last l a.
Proof.
  destruct l as [|b l]; [reflexivity|].
  change (last (b :: l) d = last (b :: l) a). apply last_default_irrelevant.
Qed.

Lemma Apply_loop_fn (f : option strptr -> float64 -> float64) (m : gomap)
    (c0 : Counter) (k0 : string) :
  fst (fst (fold_left
              (Apply_iter (fun key a (env : unit) => (f key a, env)))
              m (c0, tt, k0)))
  = fold_left (fun c kv => Set_ c (fst kv) (f (Some addr_k) (snd kv))) m c0.
Proof.
  revert c0 k0. induction m as [|[k v] m IH]; intros c0 k0; simpl;
    [reflexivity|apply IH].
Qed.

(** The counter [Apply] leaves, for a function that writes nothing it
    captures. *)
Lemma Apply_fn_eq (f : option strptr -> float64 -> float64) (c : Counter) :
  Apply_fn f c
  = fold_left (fun c kv => Set_ c (fst kv) (f (Some addr_k) (snd kv)))
      (values c) (mkCounter (values c) (f None (Base c))).
Proof. unfold Apply_fn, Apply. simpl. apply Apply_loop_fn. Qed.

Lemma Base_fold_entries (g : float64 -> float64) (m : gomap) (c0 : Counter) :
  Base (fold_left (fun c kv => Set_ c (fst kv) (g (snd kv))) m c0) = Base c0.
Proof.
  revert c0. induction m as [|[k v] m IH]; intros c0; simpl; [reflexivity|].
  now rewrite IH, Base_Set.
Qed.

Lemma map_get_fold_entries (g : float64 -> float64) (m : gomap)
    (c0 : Counter) (k : string) :
  distinct_keys m ->
  map_get k (values (fold_left (fun c kv => Set_ c (fst kv) (g (snd kv))) m c0))
  = match map_get k m with
    | Some v => Some (g v)
    | None => map_get k (values c0)
    end.
Proof.
  unfold distinct_keys. revert c0.
  induction m as [|[k1 v1] m IH]; intros c0 Hnd; simpl; [reflexivity|].
  inversion Hnd as [|? ? Hnotin Hnd']; subst.
  rewrite IH by assumption. rewrite map_get_Set. simpl.
  destruct (String.eqb_spec k k1) as [->|Hne]; [|reflexivity].
  apply map_get_None in Hnotin. now rewrite Hnotin.
Qed.

Lemma Get_fold_entries (g : float64 -> float64) (m : gomap) (c0 : Counter)
    (k : string) :
  distinct_keys m ->
  Get (fold_left (fun c kv => Set_ c (fst kv) (g (snd kv))) m c0) k
  = match map_get k m with
    | Some v => g v
    | None => Get c0 k
    end.
Proof.
  intros Hnd. unfold Get at 1.
  rewrite map_get_fold_entries by assumption. rewrite Base_fold_entries.
  now destruct (map_get k m).
Qed.

Lemma reduce_fold (c : Counter) (seed : float64) (op : binop) :
  reduce c seed op = fold_left op (List.map snd (values c)) seed.
Proof.
  unfold reduce. generalize seed. generalize (values c) as m.
  induction m as [|[k v] m IH]; intros s; simpl; [reflexivity|apply IH].
Qed.

(** ** ArgMax *)

Lemma ArgMax_fn_default (base : float64) (maxVal : float64) :
  ArgMax_fn None base (None, maxVal) = (base, (None, base)).
Proof. unfold ArgMax_fn. simpl. now rewrite orb_true_r. Qed.

Lemma ArgMax_fn_first (v maxVal : float64) :
  ArgMax_fn (Some addr_k) v (None, maxVal) = (v, (Some addr_k, v)).
Proof. unfold ArgMax_fn. simpl. now rewrite orb_true_r. Qed.

Lemma ArgMax_fn_next (v maxVal : float64) :
  ArgMax_fn (Some addr_k) v (Some addr_k, maxVal)
  = (v, (Some addr_k, if maxVal <? v then v else maxVal)).
Proof. unfold ArgMax_fn. simpl. now destruct (maxVal <? v). Qed.

Lemma snd_greater_entry (m : gomap) (best : string * float64) :
  snd (fold_left greater_entry m best) = fold_left greater_value m (snd best).
Proof.
  revert best. induction m as [|[k v] m IH]; intros best; [reflexivity|].
  simpl. rewrite IH. f_equal.
  unfold greater_entry, greater_value. simpl.
  now destruct (snd best <? v).
Qed.

(** After the first entry, [maxKey] is [&k]; the loop keeps in [maxVal]
    the greatest value by the rule and in [k] the key it visits. *)
Lemma ArgMax_loop (m : gomap) (c : Counter) (maxVal : float64) (k0 : string) :
  fold_left (Apply_iter ArgMax_fn) m (c, (Some addr_k, maxVal), k0)
  = (fold_left (fun c kv => Set_ c (fst kv) (snd kv)) m c,
     (Some addr_k, fold_left greater_value m maxVal),
     last (map_keys m) k0).
Proof.
  revert c maxVal k0.
  induction m as [|[k v] m IH]; intros c maxVal k0; [reflexivity|].
  cbn [fold_left]. unfold Apply_iter at 2. cbn [fst snd].
  rewrite ArgMax_fn_next. rewrite IH.
  cbn [map_keys List.map fst]. fold (map_keys m). now rewrite last_cons.
Qed.

(** On a counter with at least one entry, [ArgMax] returns the value the
    rule selects, with the key the loop visited last. *)
Lemma ArgMax_key_and_value (kv : string * float64) (m : gomap)
    (base : float64) :
  fst (ArgMax (mkCounter (kv :: m) base))
  = Returns (last (map_keys m) (fst kv), snd (fold_left greater_entry m kv)).
Proof.
  unfold ArgMax, Apply. rewrite ArgMax_fn_default. cbn [values Base].
  cbn [fold_left]. unfold Apply_iter at 2. rewrite ArgMax_fn_first.
  rewrite ArgMax_loop. cbn [fst]. now rewrite snd_greater_entry.
Qed.

(** C3.  The specification asks that [ArgMax] on a counter that is not
    empty return an entry of the counter, chosen by the rule "the first
    entry is accepted, a later one replaces it when strictly greater".
    On base [0.0] and entries [a -> 9.0], [b -> 1.0], visited in this
    order, the rule selects [("a", 9.0)]; [ArgMax] returns [("b", 9.0)],
    and ["b"] holds [1.0].  [maxKey] is [&k], the address of the loop's
    one variable, which holds the last key when [*maxKey] is read.  On
    the entries [a -> 9.0], [b -> 9.0] the key returned is the one visited
    last in either order, where the rule keeps the one visited first. *)
Theorem ArgMax_returns_last_key_visited :
  (spec_arg_max (values counter_a9_b1) = Some ("a", 9) /\
   fst (ArgMax counter_a9_b1) = Returns ("b", 9) /\
   Get counter_a9_b1 "b" = 1 /\
   Get counter_a9_b1 "b" <> 9) /\
  (spec_arg_max (values counter_a9_b9) = Some ("a", 9) /\
   fst (ArgMax counter_a9_b9) = Returns ("b", 9)) /\
  (spec_arg_max (values counter_b9_a9) = Some ("b", 9) /\
   fst (ArgMax counter_b9_a9) = Returns ("a", 9)).
Proof.
  repeat split; try reflexivity.
  float_neq (fun x => x =? 9).
Qed.

(** C4.  The specification asks for an explicit error from [ArgMax] on an
    empty counter, without a dereference of an absent key.  On [New(base)]
    the loop of [Apply] has no iteration, [maxKey] is still [nil] at the
    [return] statement, and [*maxKey] panics. *)
Theorem ArgMax_empty_counter_nil_dereference (base : float64) :
  ArgMax (New base) = (PanicNilDereference, New base).
Proof. unfold ArgMax, Apply. now rewrite ArgMax_fn_default. Qed.

(** ** Normalize *)

(** C9.  [Normalize] takes as total the fold of [+] from [0.0] over the
    stored values, the base not among them, and divides the base and every
    stored value by it; it stores no key that was absent.  On base [0.0] and
    entries [x -> 1.0], [y -> 3.0], in either order, the result has entries
    [x -> 0.25], [y -> 0.75] and base [0.0]. *)
Theorem Normalize_divides_by_total_of_entries :
  (forall c,
     distinct_keys (values c) ->
     let total := fold_left add (List.map snd (values c)) 0 in
     reduce c 0 add = total /\
     Base (Normalize c) = Base c / total /\
     (forall k v, map_get k (values c) = Some v ->
                  Get (Normalize c) k = v / total) /\
     (forall k, map_get k (values c) = None ->
                map_get k (values (Normalize c)) = None)) /\
  Normalize counter_x1_y3 = mkCounter [("x", 0.25); ("y", 0.75)] 0 /\
  Normalize counter_y3_x1 = mkCounter [("y", 0.75); ("x", 0.25)] 0.
Proof.
  split; [|split; reflexivity].
  intros c Hnd total.
  assert (Ht : reduce c 0 add = total) by apply reduce_fold.
  split; [assumption|].
  unfold Normalize. rewrite Ht, Apply_fn_eq.
  split; [|split].
  - now rewrite (Base_fold_entries (fun a => a / total)).
  - intros k v Hk.
    rewrite (Get_fold_entries (fun a => a / total)) by assumption.
    now rewrite Hk.
  - intros k Hk.
    rewrite (map_get_fold_entries (fun a => a / total)) by assumption.
    now rewrite Hk.
Qed.

Lemma Normalize_divides_by_total_of_entries_witness :
  distinct_keys (values counter_x1_y3) /\
  reduce counter_x1_y3 0 add = 4 /\
  Base (Normalize counter_x1_y3) = 0 /\
  Get (Normalize counter_x1_y3) "x" = 0.25 /\
  Get (Normalize counter_x1_y3) "y" = 0.75.
Proof.
  assert (Hnd : distinct_keys (values counter_x1_y3)).
  { repeat constructor; simpl; intros H;
      repeat (destruct H as [H|H]; try discriminate H); assumption. }
  destruct (proj1 Normalize_divides_by_total_of_entries counter_x1_y3 Hnd)
    as [Ht [Hb [Hg _]]].
  split; [exact Hnd|].
  split; [exact Ht|].
  split; [exact Hb|].
  split; [exact (Hg "x" 1 eq_refl)|exact (Hg "y" 3 eq_refl)].
Defined.

(** * Further properties of the code *)

(** ** float64 arithmetic and comparison *)

Lemma SFadd_comm (prec emax : Z) (x y : spec_float) :
  SFadd prec emax x y = SFadd prec emax y x.
Proof.
  destruct x as [sx|sx| |sx mx ex], y as [sy|sy| |sy my ey]; simpl;
    try reflexivity; try (destruct sx, sy; reflexivity).
  rewrite (Z.min_comm ey ex).
  now rewrite (Z.add_comm (cond_Zopp sy _)).
Qed.

Lemma SFmul_comm (prec emax : Z) (x y : spec_float) :
  SFmul prec emax x y = SFmul prec emax y x.
Proof.
  destruct x as [sx|sx| |sx mx ex], y as [sy|sy| |sy my ey]; simpl;
    try reflexivity; try (destruct sx, sy; reflexivity).
  now rewrite (xorb_comm sy sx), (Pos.mul_comm my mx), (Z.add_comm ey ex).
Qed.

Lemma float_add_comm (x y : float64) : x + y = y + x.
Proof. apply Prim2SF_inj. rewrite !add_spec. apply SFadd_comm. Qed.

Lemma float_mul_comm (x y : float64) : x * y = y * x.
Proof. apply Prim2SF_inj. rewrite !mul_spec. apply SFmul_comm. Qed.

Lemma SFltb_irrefl (x : spec_float) : SFltb x x = false.
Proof.
  unfold SFltb. destruct x as [s|s| |s m e]; simpl; try reflexivity;
    destruct s; try reflexivity; cmp_cases.
Qed.

(** A float strictly above one that is not below [c] is not below [c]. *)
Lemma SFltb_above (a b c : spec_float) :
  SFltb a b = true -> SFltb a c = false -> SFltb b c = false.
Proof.
  unfold SFltb.
  destruct a as [sa|sa| |sa ma ea], b as [sb|sb| |sb mb eb],
           c as [sc|sc| |sc mc ec]; simpl;
    try discriminate; try reflexivity;
    try (destruct sa; try discriminate; try reflexivity);
    try (destruct sb; try discriminate; try reflexivity);
    try (destruct sc; try discriminate; try reflexivity);
    intros H1 H2; cmp_cases.
Qed.

Lemma float_ltb_irrefl (x : float64) : (x <? x) = false.
Proof. rewrite ltb_spec. apply SFltb_irrefl. Qed.

Lemma float_ltb_above (a b c : float64) :
  (a <? b) = true -> (a <? c) = false -> (b <? c) = false.
Proof. rewrite !ltb_spec. apply SFltb_above. Qed.

(** ** Set, Incr and Keys on the other keys *)

Lemma In_map_delete_other (k k' : string) (v' : float64) (m : gomap) :
  k' <> k -> (In (k', v') (map_delete k m) <-> In (k', v') m).
Proof.
  intros Hne. unfold map_delete. rewrite filter_In. simpl.
  destruct (String.eqb_spec k k') as [->|_]; [congruence|]. simpl. tauto.
Qed.

Lemma In_map_assign_other (k k' : string) (v v' : float64) (m : gomap) :
  k' <> k -> (In (k', v') (map_assign k v m) <-> In (k', v') m).
Proof.
  intros Hne. induction m as [|[k1 v1] m IH]; simpl.
  - split; [|tauto]. intros [E|[]]. congruence.
  - destruct (String.eqb_spec k k1) as [->|Hk]; simpl.
    + split; intros [E|H]; try (right; assumption); congruence.
    + rewrite IH. tauto.
Qed.

Lemma In_values_Set_other (c : Counter) (k k' : string) (v v' : float64) :
  k' <> k -> (In (k', v') (values (Set_ c k v)) <-> In (k', v') (values c)).
Proof.
  intros Hne. unfold Set_. destruct (v =? Base c); simpl.
  - now rewrite In_map_assign_other, In_map_delete_other.
  - now apply In_map_assign_other.
Qed.

(** X1.  [Set(k, v)] is local to [k]: it leaves the base, what [Get]
    returns for every other key, and the membership of every other key in
    [Keys()] as they were. *)
Theorem Set_changes_one_key_only (c : Counter) (k k' : string) (v : float64) :
  Base (Set_ c k v) = Base c /\
  Get (Set_ c k v) k' = (if String.eqb k' k then v else Get c k') /\
  (if String.eqb k' k then True
   else In k' (Keys (Set_ c k v)) <-> In k' (Keys c)).
Proof.
  split; [apply Base_Set|]. split; [apply Get_Set|].
  destruct (String.eqb_spec k' k) as [|Hne]; [exact I|].
  rewrite !In_Keys, Base_Set.
  split; intros [v' [Hin Hv]]; exists v'; split; try assumption.
  - now apply (In_values_Set_other c k k' v v').
  - now apply In_values_Set_other.
Qed.

(** X2.  After any sequence of calls to [Set], [Get(k)] is the value of
    the last call that named [k], and what it was before the sequence when
    no call named [k]; the base is unchanged. *)
Theorem Get_returns_last_value_Set (c : Counter)
    (sets : list (string * float64)) (k : string) :
  Base (Set_all c sets) = Base c /\
  Get (Set_all c sets) k
  = match map_get k (rev sets) with
    | Some v => v
    | None => Get c k
    end.
Proof.
  induction sets as [|[k1 v1] sets IH] using rev_ind; [now split|].
  unfold Set_all in *. rewrite fold_left_app. cbn [fold_left fst snd].
  rewrite rev_app_distr. cbn [rev app map_get]. rewrite Base_Set, Get_Set.
  destruct IH as [IHb IHg]. split; [assumption|].
  destruct (String.eqb k k1); [reflexivity|assumption].
Qed.

(** X3.  [Incr(k)] adds [1.0] to what [Get(k)] returned, starting from the
    base for a key that is not stored, and changes neither the base nor
    what [Get] returns for another key; after [n] calls [Get(k)] is its
    first value with [1.0] added [n] times. *)
Theorem Incr_adds_one_to_one_key (c : Counter) (k k' : string) (n : nat) :
  Base (Incr c k) = Base c /\
  Get (Incr c k) k' = (if String.eqb k' k then Get c k + 1 else Get c k') /\
  Get (Nat.iter n (fun c => Incr c k) c) k
  = Nat.iter n (fun x => x + 1) (Get c k).
Proof.
  split; [apply Base_Set|]. split; [apply Get_Incr|].
  induction n as [|n IH]; [reflexivity|].
  simpl. rewrite Get_Incr, String.eqb_refl. now rewrite IH.
Qed.

(** X4.  No sequence of calls to [Set] removes a key from the map: the
    keys stored afterwards are the keys stored before and the keys the
    calls named, whatever the values were. *)
Theorem Set_never_removes_a_key (c : Counter)
    (sets : list (string * float64)) (k : string) :
  map_get k (values (Set_all c sets)) = None
  <-> (~ In k (List.map fst sets) /\ map_get k (values c) = None).
Proof.
  revert c. induction sets as [|[k1 v1] sets IH]; intros c.
  - simpl. tauto.
  - unfold Set_all in *. cbn [fold_left fst snd List.map].
    rewrite IH, map_get_Set. simpl.
    destruct (String.eqb_spec k k1) as [->|Hne].
    + split; [intros [_ H]; discriminate H|]. intros [H _]. tauto.
    + split; intros [H1 H2]; (split; [|assumption]).
      * intros [E|E]; [congruence|tauto].
      * tauto.
Qed.

(** X5.  The storage invariant is kept by [Set(k, v)] whenever [v] is not
    [==] the base. *)
Theorem Set_other_value_keeps_storage_invariant (c : Counter) (k : string)
    (v : float64) :
  storage_invariant c -> (v =? Base c) = false ->
  storage_invariant (Set_ c k v).
Proof.
  intros Hinv Hv k' v' H. rewrite map_get_Set in H. rewrite Base_Set.
  destruct (String.eqb k' k).
  - injection H as <-. assumption.
  - now apply (Hinv k').
Qed.

Lemma Set_other_value_keeps_storage_invariant_witness :
  storage_invariant (Set_ (New 0) "x" 2).
Proof.
  apply Set_other_value_keeps_storage_invariant.
  - intros k v H. discriminate H.
  - reflexivity.
Defined.

(** ** Keys and mergeKeys *)

(** X6.  [Keys()] lists, in the order the map is visited and each once,
    exactly the stored keys whose value is not [==] the base. *)
Theorem Keys_lists_values_off_base (c : Counter) :
  distinct_keys (values c) ->
  NoDup (Keys c) /\
  Keys c = map_keys (filter (tracked (Base c)) (values c)) /\
  (forall k, In k (Keys c) <->
             exists v, map_get k (values c) = Some v /\
                       (v =? Base c) = false).
Proof.
  intros Hnd. split; [now apply NoDup_Keys|]. split; [apply Keys_filter|].
  intros k. rewrite In_Keys.
  split; intros [v [H Hv]]; exists v; (split; [|assumption]).
  - now apply In_map_get.
  - now apply map_get_In.
Qed.

Lemma Keys_lists_values_off_base_witness :
  Keys (mkCounter [("a", 9); ("z", 0); ("b", 1)] 0) = ["a"; "b"] /\
  NoDup (Keys (mkCounter [("a", 9); ("z", 0); ("b", 1)] 0)).
Proof.
  assert (Hnd : distinct_keys
                  (values (mkCounter [("a", 9); ("z", 0); ("b", 1)] 0))).
  { repeat constructor; simpl; intros H;
      repeat (destruct H as [H|H]; try discriminate H); assumption. }
  destruct (Keys_lists_values_off_base _ Hnd) as [H1 [H2 _]].
  split; [exact H2|exact H1].
Defined.

Lemma filter_all (A : Type) (f : A -> bool) (l : list A) :
  (forall x, In x l -> f x = true) -> filter f l = l.
Proof.
  induction l as [|x l IH]; intros H; simpl; [reflexivity|].
  rewrite (H x) by now left. f_equal. apply IH. intros y Hy. apply H.
  now right.
Qed.

Lemma filter_none (A : Type) (f : A -> bool) (l : list A) :
  (forall x, In x l -> f x = false) -> filter f l = [].
Proof.
  induction l as [|x l IH]; intros H; simpl; [reflexivity|].
  rewrite (H x) by now left. apply IH. intros y Hy. apply H. now right.
Qed.

(** The keys of [b] that [a] has already are not emitted. *)
Lemma mergeKeys_absorbs (a b : list string) :
  (forall k, In k b -> In k a) -> mergeKeys a b = a.
Proof.
  intros H. rewrite mergeKeys_eq, filter_none; [apply app_nil_r|].
  intros k Hk. rewrite seen_get_rev.
  now rewrite (seen_get_true _ _ (H k Hk)).
Qed.

(** X7.  [mergeKeys] starts with [a] as it is and appends keys of [b] in
    their order; it returns [a] when [b] is empty or is [a] itself, and [b]
    when [a] is empty; it never emits more than the two lists hold. *)
Theorem mergeKeys_keeps_first_list (a b : list string) :
  (exists rest, mergeKeys a b = a ++ rest /\
                rest = filter (fun k => negb (seen_get a k)) b) /\
  mergeKeys a [] = a /\
  mergeKeys [] b = b /\
  mergeKeys a a = a /\
  (List.length (mergeKeys a b) <= List.length a + List.length b)%nat.
Proof.
  assert (E : mergeKeys a b = a ++ filter (fun k => negb (seen_get a k)) b).
  { rewrite mergeKeys_eq. f_equal. apply filter_ext. intros k.
    now rewrite seen_get_rev. }
  split; [eexists; split; [exact E|reflexivity]|].
  split; [apply mergeKeys_absorbs; intros k []|].
  split; [rewrite mergeKeys_eq; simpl; now apply filter_all|].
  split; [now apply mergeKeys_absorbs|].
  rewrite E, length_app. apply Nat.add_le_mono_l. apply filter_length_le.
Qed.

(** ** Apply and the transforms built on it *)

Lemma distinct_keys_fold_entries (g : float64 -> float64) (m : gomap)
    (c0 : Counter) :
  distinct_keys (values c0) ->
  distinct_keys
    (values (fold_left (fun c kv => Set_ c (fst kv) (g (snd kv))) m c0)).
Proof.
  revert c0. induction m as [|[k v] m IH]; intros c0 H; [assumption|].
  simpl. apply IH. now apply distinct_keys_Set.
Qed.

Lemma distinct_keys_Apply_fn (f : option strptr -> float64 -> float64)
    (c : Counter) :
  distinct_keys (values c) -> distinct_keys (values (Apply_fn f c)).
Proof.
  intros H. rewrite Apply_fn_eq.
  now apply (distinct_keys_fold_entries (f (Some addr_k))).
Qed.

Lemma Get_Apply_fn (f : option strptr -> float64 -> float64) (c : Counter)
    (k : string) :
  distinct_keys (values c) ->
  Get (Apply_fn f c) k
  = match map_get k (values c) with
    | Some v => f (Some addr_k) v
    | None => f None (Base c)
    end.
Proof.
  intros H. rewrite Apply_fn_eq.
  rewrite (Get_fold_entries (f (Some addr_k))) by assumption.
  unfold Get. simpl. now destruct (map_get k (values c)).
Qed.

(** A function that does not look at the key commutes with [Get]. *)
Lemma Get_Apply_fn_value (g : float64 -> float64) (c : Counter) (k : string) :
  distinct_keys (values c) ->
  Get (Apply_fn (fun _ a => g a) c) k = g (Get c k).
Proof.
  intros H. rewrite Get_Apply_fn by assumption. unfold Get.
  now destruct (map_get k (values c)).
Qed.



Section MathFacts.

Variables math_Log math_Exp : float64 -> float64.

(** X9.  [Log()] and [Exp()] act on what [Get] returns for every key,
    stored or not: [Get(k)] afterwards is [math.Log], respectively
    [math.Exp], of [Get(k)] before; [Exp()] followed by [Log()] gives
    [math.Log(math.Exp(Get(k)))]. *)
Theorem Log_and_Exp_act_on_every_key (c : Counter) :
  distinct_keys (values c) ->
  (forall k, Get (Log math_Log c) k = math_Log (Get c k)) /\
  (forall k, Get (Exp math_Exp c) k = math_Exp (Get c k)) /\
  (forall k, Get (Log math_Log (Exp math_Exp c)) k
             = math_Log (math_Exp (Get c k))).
Proof.
  intros H. unfold Log, Exp. split; [|split]; intros k.
  - now apply (Get_Apply_fn_value math_Log).
  - now apply (Get_Apply_fn_value math_Exp).
  - rewrite (Get_Apply_fn_value math_Log)
      by now apply distinct_keys_Apply_fn.
    now rewrite (Get_Apply_fn_value math_Exp).
Qed.

(** X10.  [LogNormalize()] leaves under every key, stored or not,
    [math.Log(Get(k)) - math.Log(total)], where [total] is the fold of [+]
    from [0.0] over the stored values. *)
Theorem LogNormalize_acts_on_every_key (c : Counter) :
  distinct_keys (values c) ->
  forall k,
    Get (LogNormalize math_Log c) k
    = math_Log (Get c k)
      - math_Log (fold_left add (List.map snd (values c)) 0).
Proof.
  intros H k. unfold LogNormalize. rewrite reduce_fold.
  now apply (Get_Apply_fn_value
               (fun a => math_Log a
                         - math_Log (fold_left add
                                       (List.map snd (values c)) 0))).
Qed.

End MathFacts.

Lemma Log_and_Exp_act_on_every_key_witness :
  Get (Log sqrt counter_x1_y3) "z" = sqrt 0 /\
  Get (Exp (fun x => x * x) counter_x1_y3) "y" = 9 /\
  Get (Log sqrt (Exp (fun x => x * x) counter_x1_y3)) "y" = 3.
Proof.
  assert (Hnd : distinct_keys (values counter_x1_y3)).
  { repeat constructor; simpl; intros H;
      repeat (destruct H as [H|H]; try discriminate H); assumption. }
  destruct (Log_and_Exp_act_on_every_key
              sqrt (fun x => x * x) counter_x1_y3 Hnd) as [Hl [He Hle]].
  split; [exact (Hl "z")|]. split; [exact (He "y")|exact (Hle "y")].
Defined.

Lemma LogNormalize_acts_on_every_key_witness :
  Get (LogNormalize sqrt counter_x1_y3) "y" = sqrt 3 - 2.
Proof.
  assert (Hnd : distinct_keys (values counter_x1_y3)).
  { repeat constructor; simpl; intros H;
      repeat (destruct H as [H|H]; try discriminate H); assumption. }
  exact (LogNormalize_acts_on_every_key sqrt counter_x1_y3 Hnd "y").
Defined.

(** ** Normalize *)

(** X11.  [Normalize()] divides what [Get] returns for every key, stored or
    not, by the total of the stored values.  On a counter with no entry the
    total is [0.0]: the base [b] becomes [b / 0.0], which is NaN for
    [b = 0.0], and nothing is stored. *)
Theorem Normalize_acts_on_every_key :
  (forall c,
     distinct_keys (values c) ->
     forall k, Get (Normalize c) k = Get c k / reduce c 0 add) /\
  (forall b, Normalize (New b) = New (b / 0)) /\
  Base (Normalize (New 0)) = nan.
Proof.
  split; [|split; reflexivity].
  intros c H k. unfold Normalize.
  now apply (Get_Apply_fn_value (fun a => a / reduce c 0 add)).
Qed.

Lemma Normalize_acts_on_every_key_witness :
  Get (Normalize counter_x1_y3) "z" = 0 /\
  Get (Normalize counter_x1_y3) "y" = 0.75.
Proof.
  assert (Hnd : distinct_keys (values counter_x1_y3)).
  { repeat constructor; simpl; intros H;
      repeat (destruct H as [H|H]; try discriminate H); assumption. }
  split.
  - exact (proj1 Normalize_acts_on_every_key counter_x1_y3 Hnd "z").
  - exact (proj1 Normalize_acts_on_every_key counter_x1_y3 Hnd "y").
Defined.

(** ** The operations on two counters *)

Lemma seen_get_mergeKeys (a b : list string) (k : string) :
  seen_get (mergeKeys a b) k = seen_get a k || seen_get b k.
Proof.
  destruct (seen_get (mergeKeys a b) k) eqn:E.
  - apply seen_get_In, In_mergeKeys in E. symmetry. apply orb_true_iff.
    destruct E as [E|E]; [left|right]; now apply seen_get_In.
  - symmetry. apply orb_false_iff.
    apply existsb_eqb_notIn in E. rewrite In_mergeKeys in E.
    split; apply existsb_eqb_notIn; tauto.
Qed.

Lemma returned_operate (h : Heap.heap) (a b : Heap.ptr) (op : binop)
    (keys : keysfn) :
  (a < List.length h)%nat -> (b < List.length h)%nat ->
  returned (Heap.operate a b op keys h)
  = operate_new (Heap.deref h a) (Heap.deref h b) op keys.
Proof.
  intros Ha Hb. unfold returned.
  rewrite HeapFacts.operate_eq by assumption. simpl.
  apply HeapFacts.deref_app_new.
Qed.

(** With a commutative [op] the two orders of the operands give counters
    with the same base and the same [Get]. *)
Lemma operate_new_comm (a b : Counter) (op : binop) :
  (forall x y, op x y = op y x) ->
  Base (operate_new a b op mergeKeys) = Base (operate_new b a op mergeKeys) /\
  forall k, Get (operate_new a b op mergeKeys) k
            = Get (operate_new b a op mergeKeys) k.
Proof.
  intros Hop. rewrite !Base_operate_new. split; [apply Hop|].
  intros k. rewrite !Get_operate_new, !seen_get_mergeKeys.
  rewrite (orb_comm (seen_get (Keys b) k)).
  now rewrite (Hop (Get b k)), (Hop (Base b)).
Qed.

(** X12.  [Add(a, b)] and [Add(b, a)] return counters with the same base
    and the same [Get(k)] for every key, and so do [Multiply(a, b)] and
    [Multiply(b, a)]: float64 [+] and [*] are commutative, and the two
    merges emit the same keys. *)
Theorem Add_and_Multiply_are_commutative (h : Heap.heap) (a b : Heap.ptr) :
  (a < List.length h)%nat -> (b < List.length h)%nat ->
  (Base (returned (Heap.Add a b h)) = Base (returned (Heap.Add b a h)) /\
   forall k, Get (returned (Heap.Add a b h)) k
             = Get (returned (Heap.Add b a h)) k) /\
  (Base (returned (Heap.Multiply a b h))
   = Base (returned (Heap.Multiply b a h)) /\
   forall k, Get (returned (Heap.Multiply a b h)) k
             = Get (returned (Heap.Multiply b a h)) k).
Proof.
  intros Ha Hb. unfold Heap.Add, Heap.Multiply.
  rewrite !returned_operate by assumption.
  split; apply operate_new_comm; [apply float_add_comm|apply float_mul_comm].
Qed.

Lemma Add_and_Multiply_are_commutative_witness :
  Get (returned (Heap.Add 0 1 heap_add)) "x"
  = Get (returned (Heap.Add 1 0 heap_add)) "x" /\
  Base (returned (Heap.Multiply 0 1 heap_add))
  = Base (returned (Heap.Multiply 1 0 heap_add)).
Proof.
  assert (Ha : (0 < List.length heap_add)%nat) by (simpl; lia).
  assert (Hb : (1 < List.length heap_add)%nat) by (simpl; lia).
  destruct (Add_and_Multiply_are_commutative heap_add 0%nat 1%nat Ha Hb)
    as [[_ Hadd] [Hmul _]].
  split; [exact (Hadd "x")|exact Hmul].
Defined.

Lemma map_get_fold_Set (f : string -> float64) (ks : list string)
    (r : Counter) (k : string) :
  map_get k (values (fold_left (fun r k => Set_ r k (f k)) ks r))
  = if seen_get ks k then Some (f k) else map_get k (values r).
Proof.
  revert r. induction ks as [|k1 ks IH]; intros r; simpl; [reflexivity|].
  rewrite IH, map_get_Set.
  destruct (String.eqb_spec k k1) as [->|Hne]; simpl.
  - now destruct (seen_get ks k1).
  - reflexivity.
Qed.

Lemma distinct_keys_fold_Set (f : string -> float64) (ks : list string)
    (r : Counter) :
  distinct_keys (values r) ->
  distinct_keys (values (fold_left (fun r k => Set_ r k (f k)) ks r)).
Proof.
  revert r. induction ks as [|k1 ks IH]; intros r H; [assumption|].
  simpl. apply IH. now apply distinct_keys_Set.
Qed.

(** X13.  The counter [operate] returns stores exactly the keys that
    [a.Keys()] or [b.Keys()] lists, each under the value computed for it,
    also when that value is [==] the base of the result. *)
Theorem operate_stores_every_merged_key (h : Heap.heap) (a b : Heap.ptr)
    (op : binop) :
  (a < List.length h)%nat -> (b < List.length h)%nat ->
  let ca := Heap.deref h a in
  let cb := Heap.deref h b in
  let result := returned (Heap.operate a b op mergeKeys h) in
  distinct_keys (values result) /\
  forall k,
    map_get k (values result)
    = if seen_get (Keys ca) k || seen_get (Keys cb) k
      then Some (op (Get ca k) (Get cb k))
      else None.
Proof.
  intros Ha Hb. cbv zeta. rewrite returned_operate by assumption.
  unfold operate_new. split.
  - apply (distinct_keys_fold_Set
             (fun k => op (Get (Heap.deref h a) k) (Get (Heap.deref h b) k))).
    constructor.
  - intros k.
    rewrite (map_get_fold_Set
               (fun k => op (Get (Heap.deref h a) k)
                            (Get (Heap.deref h b) k))).
    now rewrite seen_get_mergeKeys.
Qed.

Lemma operate_stores_every_merged_key_witness :
  map_get "x" (values (returned (Heap.Subtract 1 1 heap_add))) = Some 0 /\
  Base (returned (Heap.Subtract 1 1 heap_add)) = 0 /\
  Keys (returned (Heap.Subtract 1 1 heap_add)) = [].
Proof.
  assert (Hb : (1 < List.length heap_add)%nat) by (simpl; lia).
  destruct (operate_stores_every_merged_key heap_add 1%nat 1%nat sub Hb Hb)
    as [_ Hk].
  split; [exact (Hk "x")|]. split; reflexivity.
Defined.

(** The loop of the method [operate] writes to [a] only and keeps its
    base, whatever it reads. *)
Lemma inplace_loop_frame (a : Heap.ptr)
    (F : Heap.heap -> string -> float64) (ks : list string) (h0 : Heap.heap) :
  let h' :=
    fold_left
      (fun h k => Heap.update h a (Set_ (Heap.deref h a) k (F h k))) ks h0 in
  List.length h' = List.length h0 /\
  (forall p, p <> a -> Heap.deref h' p = Heap.deref h0 p) /\
  ((a < List.length h0)%nat ->
   Base (Heap.deref h' a) = Base (Heap.deref h0 a)).
Proof.
  revert h0. induction ks as [|k ks IH]; intros h0; cbv zeta.
  - repeat split; reflexivity.
  - cbn [fold_left].
    destruct (IH (Heap.update h0 a
                    (Set_ (Heap.deref h0 a) k (F h0 k)))) as [Hl [Ho Hb]].
    rewrite HeapFacts.length_update in *.
    split; [exact Hl|]. split.
    + intros p Hp. rewrite (Ho p Hp).
      apply HeapFacts.deref_update_other. congruence.
    + intros Ha. rewrite (Hb Ha).
      rewrite HeapFacts.deref_update_same by assumption. apply Base_Set.
Qed.

(** X14.  The method [operate] (so [c.Add(o)], [c.Subtract(o)],
    [c.Multiply(o)], [c.Divide(o)]) allocates nothing and writes to its
    receiver only: every other counter, [b] included when it is another
    object, is as it was; the receiver's base becomes
    [op(a.Base, b.Base)], also when [b] is [a]. *)
Theorem Counter_operate_writes_the_receiver_only (h : Heap.heap)
    (a b : Heap.ptr) (op : binop) (keys : keysfn) :
  (a < List.length h)%nat ->
  let h' := Heap.Counter_operate a b op keys h in
  List.length h' = List.length h /\
  (forall p, p <> a -> Heap.deref h' p = Heap.deref h p) /\
  Base (Heap.deref h' a)
  = op (Base (Heap.deref h a)) (Base (Heap.deref h b)).
Proof.
  intros Ha. cbv zeta. unfold Heap.Counter_operate.
  set (h1 := Heap.update h a _).
  destruct (inplace_loop_frame a
              (fun h k => op (Get (Heap.deref h a) k)
                             (Get (Heap.deref h b) k))
              (keys (Keys (Heap.deref h1 a)) (Keys (Heap.deref h1 b))) h1)
    as [Hl [Ho Hb]].
  cbv zeta in Hl, Ho, Hb. unfold h1 in *.
  rewrite HeapFacts.length_update in *.
  split; [exact Hl|]. split.
  - intros p Hp. rewrite (Ho p Hp).
    apply HeapFacts.deref_update_other. congruence.
  - rewrite (Hb Ha). now rewrite HeapFacts.deref_update_same by assumption.
Qed.

Lemma Counter_operate_writes_the_receiver_only_witness :
  List.length (Heap.Counter_Add 0 1 heap_add) = 2%nat /\
  Heap.deref (Heap.Counter_Add 0 1 heap_add) 1 = Heap.deref heap_add 1 /\
  Base (Heap.deref (Heap.Counter_Add 0 1 heap_add) 0) = 3.
Proof.
  assert (Ha : (0 < List.length heap_add)%nat) by (simpl; lia).
  destruct (Counter_operate_writes_the_receiver_only
              heap_add 0%nat 1%nat add mergeKeys Ha) as [Hl [Ho Hb]].
  split; [exact Hl|]. split; [|exact Hb].
  apply (Ho 1%nat). discriminate.
Defined.

Lemma Base_fold_Set_read (g : float64 -> string -> float64)
    (ks : list string) (r : Counter) :
  Base (fold_left (fun a k => Set_ a k (g (Get a k) k)) ks r) = Base r.
Proof.
  revert r. induction ks as [|k ks IH]; intros r; simpl; [reflexivity|].
  now rewrite IH, Base_Set.
Qed.

Lemma inplace_self_loop (h : Heap.heap) (a : Heap.ptr) (op : binop)
    (ks : list string) (r : Counter) :
  (a < List.length h)%nat ->
  fold_left
    (fun h k =>
       Heap.update h a
         (Set_ (Heap.deref h a) k
            (op (Get (Heap.deref h a) k) (Get (Heap.deref h a) k))))
    ks (Heap.update h a r)
  = Heap.update h a
      (fold_left (fun c k => Set_ c k (op (Get c k) (Get c k))) ks r).
Proof.
  intros Ha. revert r. induction ks as [|k ks IH]; intros r; simpl;
    [reflexivity|].
  rewrite HeapFacts.deref_update_same by assumption.
  assert (E : forall c c',
             Heap.update (Heap.update h a c) a c' = Heap.update h a c').
  { clear. revert a. induction h as [|x h IHh]; intros [|a] c c'; simpl;
      try reflexivity. now rewrite IHh. }
  rewrite E. apply IH.
Qed.

(** The method [operate] with the receiver as its argument. *)
Lemma Counter_operate_self_eq (h : Heap.heap) (a : Heap.ptr) (op : binop)
    (keys : keysfn) :
  (a < List.length h)%nat ->
  Heap.Counter_operate a a op keys h
  = Heap.update h a
      (fold_left (fun c k => Set_ c k (op (Get c k) (Get c k)))
         (keys
            (Keys (mkCounter (values (Heap.deref h a))
                     (op (Base (Heap.deref h a)) (Base (Heap.deref h a)))))
            (Keys (mkCounter (values (Heap.deref h a))
                     (op (Base (Heap.deref h a)) (Base (Heap.deref h a))))))
         (mkCounter (values (Heap.deref h a))
            (op (Base (Heap.deref h a)) (Base (Heap.deref h a))))).
Proof.
  intros Ha. unfold Heap.Counter_operate.
  rewrite HeapFacts.deref_update_same by assumption.
  now apply inplace_self_loop.
Qed.

(** X15.  [a.operate(a, op, mergeKeys)] (so [a.Add(a)] and the like):
    the base becomes [op(base, base)]; a stored value [v] becomes
    [op(v, v)], except when [v] is [==] the new base, where it stays [v];
    a key that is not stored reads as the new base. *)
Theorem Counter_operate_on_the_receiver_itself (h : Heap.heap)
    (a : Heap.ptr) (op : binop) :
  (a < List.length h)%nat ->
  distinct_keys (values (Heap.deref h a)) ->
  let ca := Heap.deref h a in
  let base' := op (Base ca) (Base ca) in
  let a' := Heap.deref (Heap.Counter_operate a a op mergeKeys h) a in
  Base a' = base' /\
  forall k,
    Get a' k
    = match map_get k (values ca) with
      | Some v => if v =? base' then v else op v v
      | None => base'
      end.
Proof.
  intros Ha Hnd. cbv zeta.
  rewrite Counter_operate_self_eq by assumption.
  rewrite HeapFacts.deref_update_same by assumption.
  set (ca := Heap.deref h a) in *.
  set (c1 := mkCounter (values ca) (op (Base ca) (Base ca))).
  rewrite (mergeKeys_absorbs (Keys c1) (Keys c1)) by tauto.
  assert (Hk : NoDup (Keys c1)) by now apply NoDup_Keys.
  split.
  - now rewrite (Base_fold_Set_read (fun x _ => op x x)).
  - intros k.
    rewrite (Get_fold_Set_read (fun x _ => op x x)) by assumption.
    unfold Get at 1 2 3. cbn [values Base c1].
    destruct (map_get k (values ca)) as [v|] eqn:E.
    + destruct (v =? op (Base ca) (Base ca)) eqn:Ev.
      * rewrite seen_get_false; [reflexivity|].
        intros Hin. apply In_Keys in Hin. destruct Hin as [v' [Hin Hv']].
        cbn [values Base c1] in Hin, Hv'.
        apply (In_map_get _ _ _ Hnd) in Hin. congruence.
      * rewrite seen_get_true; [reflexivity|].
        apply In_Keys. exists v. cbn [values Base c1].
        split; [now apply map_get_In|assumption].
    + rewrite seen_get_false; [reflexivity|].
      intros Hin. apply In_Keys in Hin. destruct Hin as [v' [Hin _]].
      cbn [values c1] in Hin.
      apply (In_map_get _ _ _ Hnd) in Hin. congruence.
Qed.

Lemma Counter_operate_on_the_receiver_itself_witness :
  Base (Heap.deref
          (Heap.Counter_Add 0 0 [mkCounter [("x", 1); ("y", 2)] 1]) 0) = 2 /\
  Get (Heap.deref
         (Heap.Counter_Add 0 0 [mkCounter [("x", 1); ("y", 2)] 1]) 0) "x"
  = 2 /\
  Get (Heap.deref
         (Heap.Counter_Add 0 0 [mkCounter [("x", 1); ("y", 2)] 1]) 0) "y"
  = 2.
Proof.
  assert (Ha : (0 < List.length [mkCounter [("x", 1%float); ("y", 2%float)]
                                   1%float])%nat) by (simpl; lia).
  assert (Hnd : distinct_keys
                  (values (Heap.deref [mkCounter [("x", 1); ("y", 2)] 1] 0))).
  { repeat constructor; simpl; intros H;
      repeat (destruct H as [H|H]; try discriminate H); assumption. }
  destruct (Counter_operate_on_the_receiver_itself
              [mkCounter [("x", 1); ("y", 2)] 1] 0%nat add Ha Hnd)
    as [Hb Hg].
  split; [exact Hb|]. split; [exact (Hg "x")|exact (Hg "y")].
Defined.

(** ** ArgMax on a counter with entries *)

Lemma greater_value_not_below (m : gomap) (maxVal w : float64) :
  (maxVal <? w) = false -> (fold_left greater_value m maxVal <? w) = false.
Proof.
  revert maxVal. induction m as [|[k v] m IH]; intros maxVal H; [assumption|].
  simpl. apply IH. unfold greater_value. simpl.
  destruct (maxVal <? v) eqn:E; [|assumption].
  now apply (float_ltb_above maxVal).
Qed.

Lemma greater_value_not_below_entries (m : gomap) (maxVal w : float64) :
  In w (List.map snd m) -> (fold_left greater_value m maxVal <? w) = false.
Proof.
  revert maxVal. induction m as [|[k v] m IH]; intros maxVal Hin; [easy|].
  simpl in *. destruct Hin as [<-|Hin]; [|now apply IH].
  apply greater_value_not_below. unfold greater_value. simpl.
  destruct (maxVal <? v) eqn:E; [apply float_ltb_irrefl|assumption].
Qed.

Lemma greater_entry_In (m : gomap) (best : string * float64) :
  In (fold_left greater_entry m best) (best :: m).
Proof.
  revert best. induction m as [|kv m IH]; intros best; [now left|].
  simpl. specialize (IH (greater_entry best kv)).
  unfold greater_entry in *. destruct (snd best <? snd kv).
  - destruct IH as [<-|IH]; [right; now left|right; now right].
  - destruct IH as [<-|IH]; [now left|right; now right].
Qed.

Lemma fst_ArgMax_fn (key : option strptr) (val : float64)
    (env : option strptr * float64) :
  fst (ArgMax_fn key val env) = val.
Proof.
  unfold ArgMax_fn. destruct env as [maxKey maxVal].
  now destruct ((maxVal <? val) || is_nil maxKey).
Qed.

Lemma ArgMax_loop_counter (m : gomap) (c : Counter)
    (env : option strptr * float64) (k0 : string) :
  fst (fst (fold_left (Apply_iter ArgMax_fn) m (c, env, k0)))
  = fold_left (fun c kv => Set_ c (fst kv) (snd kv)) m c.
Proof.
  revert c env k0. induction m as [|[k v] m IH]; intros c env k0;
    [reflexivity|].
  cbn [fold_left]. unfold Apply_iter at 2. cbn [fst snd].
  pose proof (fst_ArgMax_fn (Some addr_k) v env) as E.
  destruct (ArgMax_fn (Some addr_k) v env) as [v' env']. simpl in E.
  subst v'. apply IH.
Qed.

Lemma snd_ArgMax (c : Counter) :
  snd (ArgMax c)
  = fold_left (fun c kv => Set_ c (fst kv) (snd kv)) (values c) c.
Proof.
  destruct c as [m base]. cbn [values].
  rewrite <- (ArgMax_loop_counter m (mkCounter m base) (None, base) "").
  unfold ArgMax, Apply. rewrite ArgMax_fn_default. cbn [values Base].
  destruct (fold_left (Apply_iter ArgMax_fn) m
              (mkCounter m base, (None, base), ""))
    as [[c' [maxKey maxVal]] k].
  now destruct maxKey as [[]|].
Qed.

(** X16.  On a counter with at least one entry [ArgMax] does not panic.
    The key it returns is the one the loop visited last; the value is the
    one selected by "accept the first value, replace it by a later one
    that is strictly greater". *)
Theorem ArgMax_returns_last_key_and_greatest_value (c : Counter) :
  values c <> [] ->
  fst (ArgMax c)
  = Returns (last (map_keys (values c)) "",
             match values c with
             | [] => 0
             | kv :: m => fold_left greater_value m (snd kv)
             end) /\
  In (last (map_keys (values c)) "") (map_keys (values c)).
Proof.
  destruct c as [[|kv m] base]; [easy|intros _].
  cbn [values]. split.
  - rewrite ArgMax_key_and_value, snd_greater_entry.
    cbn [map_keys List.map]. fold (map_keys m). now rewrite last_cons.
  - cbn [map_keys List.map]. fold (map_keys m). rewrite last_cons.
    destruct (exists_last (l := fst kv :: map_keys m)) as [l' [x E]];
      [discriminate|].
    assert (Hl : last (fst kv :: map_keys m) "" = x)
      by (rewrite E; apply last_last).
    rewrite last_cons in Hl. rewrite Hl, E.
    apply in_or_app. right. now left.
Qed.

Lemma ArgMax_returns_last_key_and_greatest_value_witness :
  fst (ArgMax (mkCounter [("a", 5); ("b", 9); ("c", 2)] 0))
  = Returns ("c", 9).
Proof.
  assert (Hne : values (mkCounter [("a", 5); ("b", 9); ("c", 2)] 0) <> [])
    by discriminate.
  exact (proj1 (ArgMax_returns_last_key_and_greatest_value _ Hne)).
Defined.

(** X17.  The value [ArgMax] returns on a counter with entries is one of
    the stored values, and no stored value is strictly greater than it
    (by float64 [>], under which nothing is greater than a NaN). *)
Theorem ArgMax_value_is_stored_and_not_exceeded (c : Counter) :
  values c <> [] ->
  exists k v,
    fst (ArgMax c) = Returns (k, v) /\
    In v (List.map snd (values c)) /\
    forall w, In w (List.map snd (values c)) -> (v <? w) = false.
Proof.
  destruct c as [[|kv m] base]; [easy|intros _].
  exists (last (map_keys m) (fst kv)), (snd (fold_left greater_entry m kv)).
  split; [apply ArgMax_key_and_value|]. cbn [values]. split.
  - apply in_map. apply greater_entry_In.
  - intros w Hw. rewrite snd_greater_entry. simpl in Hw.
    destruct Hw as [<-|Hw].
    + apply greater_value_not_below, float_ltb_irrefl.
    + now apply greater_value_not_below_entries.
Qed.

Lemma ArgMax_value_is_stored_and_not_exceeded_witness :
  exists k v,
    fst (ArgMax counter_a9_b1) = Returns (k, v) /\
    In v (List.map snd (values counter_a9_b1)) /\
    forall w, In w (List.map snd (values counter_a9_b1)) -> (v <? w) = false.
Proof.
  apply ArgMax_value_is_stored_and_not_exceeded. discriminate.
Defined.

(** X18.  [ArgMax] writes every value back under its key: afterwards the
    base, what [Get] returns for every key and the keys stored are what
    they were. *)
Theorem ArgMax_leaves_the_counter_readings (c : Counter) :
  distinct_keys (values c) ->
  Base (snd (ArgMax c)) = Base c /\
  (forall k, Get (snd (ArgMax c)) k = Get c k) /\
  (forall k, map_get k (values (snd (ArgMax c))) = map_get k (values c)) /\
  distinct_keys (values (snd (ArgMax c))).
Proof.
  intros H. rewrite snd_ArgMax. split; [|split; [|split]].
  - apply (Base_fold_entries (fun v => v)).
  - intros k. rewrite (Get_fold_entries (fun v => v)) by assumption.
    unfold Get. now destruct (map_get k (values c)).
  - intros k. rewrite (map_get_fold_entries (fun v => v)) by assumption.
    now destruct (map_get k (values c)).
  - now apply (distinct_keys_fold_entries (fun v => v)).
Qed.

Lemma ArgMax_leaves_the_counter_readings_witness :
  Base (snd (ArgMax counter_a9_b1)) = 0 /\
  Get (snd (ArgMax counter_a9_b1)) "a" = 9 /\
  Get (snd (ArgMax counter_a9_b1)) "z" = 0.
Proof.
  assert (Hnd : distinct_keys (values counter_a9_b1)).
  { repeat constructor; simpl; intros H;
      repeat (destruct H as [H|H]; try discriminate H); assumption. }
  destruct (ArgMax_leaves_the_counter_readings counter_a9_b1 Hnd)
    as [Hb [Hg _]].
  split; [exact Hb|]. split; [exact (Hg "a")|exact (Hg "z")].
Defined.

(** ** When the method and the function agree *)

(** X19.  When [op(a.Base, b.Base)] is [a.Base] again, the receiver holds
    the storage invariant and [a], [b] are two objects, the method
    [a.operate(b, op, mergeKeys)] leaves in [a] the base and the [Get(k)]
    for every key of the counter that [operate(a, b, op, mergeKeys)]
    returns. *)
Theorem Counter_operate_agrees_when_base_is_kept (h : Heap.heap)
    (a b : Heap.ptr) (op : binop) :
  (a < List.length h)%nat -> (b < List.length h)%nat -> a <> b ->
  distinct_keys (values (Heap.deref h a)) ->
  distinct_keys (values (Heap.deref h b)) ->
  storage_invariant (Heap.deref h a) ->
  op (Base (Heap.deref h a)) (Base (Heap.deref h b)) = Base (Heap.deref h a) ->
  let a' := Heap.deref (Heap.Counter_operate a b op mergeKeys h) a in
  let result := returned (Heap.operate a b op mergeKeys h) in
  Base a' = Base result /\ forall k, Get a' k = Get result k.
Proof.
  intros Ha Hb Hab Hda Hdb Hinv Hbase. cbv zeta.
  rewrite returned_operate by assumption.
  rewrite HeapFacts.Counter_operate_eq by assumption.
  rewrite HeapFacts.deref_update_same by assumption.
  set (ca := Heap.deref h a) in *. set (cb := Heap.deref h b) in *.
  split.
  - rewrite Base_operate_new. unfold operate_upd.
    now rewrite (Base_fold_Set_read (fun x k => op x (Get cb k))).
  - intros k. rewrite Get_operate_upd by assumption. cbv zeta.
    rewrite Get_operate_new. rewrite Hbase.
    replace (mkCounter (values ca) (Base ca)) with ca by now destruct ca.
    destruct (seen_get (mergeKeys (Keys ca) (Keys cb)) k) eqn:E;
      [reflexivity|].
    apply Get_outside_Keys; [assumption|].
    apply existsb_eqb_notIn in E. rewrite In_mergeKeys in E. tauto.
Qed.

Lemma Counter_operate_agrees_when_base_is_kept_witness :
  Get (Heap.deref
         (Heap.Counter_Add 0 1
            [mkCounter [("x", 1)] 0; mkCounter [("y", 2)] 0]) 0) "y"
  = Get (returned
           (Heap.Add 0 1 [mkCounter [("x", 1)] 0; mkCounter [("y", 2)] 0]))
      "y".
Proof.
  assert (Ha : (0 < List.length [mkCounter [("x", 1%float)] 0%float;
                                 mkCounter [("y", 2%float)] 0%float])%nat)
    by (simpl; lia).
  assert (Hb : (1 < List.length [mkCounter [("x", 1%float)] 0%float;
                                 mkCounter [("y", 2%float)] 0%float])%nat)
    by (simpl; lia).
  refine (proj2 (Counter_operate_agrees_when_base_is_kept
                   [mkCounter [("x", 1)] 0; mkCounter [("y", 2)] 0]
                   0%nat 1%nat add Ha Hb _ _ _ _ _) "y").
  - discriminate.
  - repeat constructor; simpl; tauto.
  - repeat constructor; simpl; tauto.
  - intros k v H. simpl in H.
    destruct (String.eqb k "x"); [|discriminate H].
    injection H as <-. reflexivity.
  - reflexivity.
Defined.
